(** * Enphase Envoy local monitoring: the poll / decode / write pipeline

    A shallow embedding of the two programs of the repository

    - [influxEnvoyStats/influxEnvoyStats.go], which writes one batch per
      cycle through the InfluxDB 1.x client ([Module InfluxV1]), and
    - the top-level program, which writes point by point through the
      InfluxDB 2.x blocking write API ([Module InfluxV2]).

    Both share [pollEnvoy], [poll] and the scheduling loop of [main].

    The Go standard library and the InfluxDB clients are outside the
    repository.  Their behaviour is modelled where the program depends on
    it: [encoding/json] decoding of a parsed document into the program's
    structs (Go 1.16, the toolchain pinned by the Dockerfile), [strconv]
    number parsing, and the clients' calls as events whose outcome the
    environment decides. *)

From Stdlib Require Import ZArith String Ascii SpecFloat Permutation.
From stdpp Require Import base list strings gmap.

Local Open Scope string_scope.
Local Open Scope list_scope.
Local Open Scope Z_scope.

(** ** Go values *)

(** [float64] is an IEEE 754 binary64 datum. *)
Abbreviation float64 := spec_float (only parsing).
Definition float64_zero : float64 := S754_zero false.

(** Go's [error] interface.  [nil] is [None] in [option error].  The
    constructors keep the three layers the program's errors come from. *)
Inductive error : Type :=
| NetworkError (msg : string)               (* net/http, io/ioutil *)
| SyntaxError (msg : string)                (* *json.SyntaxError *)
| UnmarshalTypeError (value type : string)  (* *json.UnmarshalTypeError *)
| WriteError (msg : string).                (* InfluxDB client *)

Definition DecodeError (e : error) : Prop :=
  match e with
  | SyntaxError _ | UnmarshalTypeError _ _ => True
  | _ => False
  end.

(** ** strconv *)

Module strconv.

Definition byte (c : ascii) : Z := Z.of_N (N_of_ascii c).

Definition isDigit (c : ascii) : bool := (48 <=? byte c) && (byte c <=? 57).

(** Value of a run of decimal digits, [None] on any other byte. *)
Fixpoint digits (acc : Z) (s : string) : option Z :=
  match s with
  | EmptyString => Some acc
  | String c s' =>
      if isDigit c then digits (10 * acc + (byte c - 48)) s' else None
  end.

(** [strconv.ParseInt(s, 10, bitSize)]: an optional sign, at least one
    digit, nothing else, and the value within the signed range. *)
Definition ParseInt (s : string) (bitSize : Z) : option Z :=
  let '(neg, body) :=
    match s with
    | String "-" r => (true, r)
    | String "+" r => (false, r)
    | _ => (false, s)
    end in
  match body with
  | EmptyString => None
  | _ =>
      match digits 0 body with
      | None => None
      | Some n =>
          let v := if neg then - n else n in
          if (- 2 ^ (bitSize - 1) <=? v) && (v <? 2 ^ (bitSize - 1))
          then Some v else None
      end
  end.

(** Longest prefix of digits, and what follows it. *)
Fixpoint span (s : string) : string * string :=
  match s with
  | String c s' =>
      if isDigit c then let '(d, r) := span s' in (String c d, r)
      else (EmptyString, s)
  | EmptyString => (EmptyString, EmptyString)
  end.

(** The decimal exponent part [e], [E] followed by a signed integer. *)
Definition exponent (s : string) : option Z :=
  match s with
  | EmptyString => Some 0
  | String c r =>
      if (byte c =? 101) || (byte c =? 69) then
        let '(neg, ds) :=
          match r with
          | String "-" r' => (true, r')
          | String "+" r' => (false, r')
          | _ => (false, r)
          end in
        match ds with
        | EmptyString => None
        | _ => (fun n : Z => if neg then - n else n) <$> digits 0 ds
        end
      else None
  end.

(** Reading of a JSON number literal as [(-1)^neg * m * 10^e]. *)
Definition decimal (s : string) : option (bool * Z * Z) :=
  let '(neg, s1) :=
    match s with String "-" r => (true, r) | _ => (false, s) end in
  let '(ip, s2) := span s1 in
  match ip with
  | EmptyString => None
  | _ =>
      let '(fp, s3) :=
        match s2 with
        | String "." r => span r
        | _ => (EmptyString, s2)
        end in
      match s2, fp with
      | String "." _, EmptyString => None
      | _, _ =>
          match digits 0 (ip +:+ fp), exponent s3 with
          | Some m, Some e => Some (neg, m, e - Z.of_nat (String.length fp))
          | _, _ => None
          end
      end
  end.

(** The binary64 nearest to [(-1)^neg * m * 10^e], ties to even. *)
Definition round64 (neg : bool) (m e : Z) : float64 :=
  if m =? 0 then S754_zero neg
  else if 0 <=? e then
    binary_normalize 53 1024 ((if neg then - m else m) * 10 ^ e) 0 false
  else
    let '(q, e', l) := SFdiv_core_binary 53 1024 m 0 (10 ^ (- e)) 0 in
    binary_round_aux 53 1024 neg q e' l.

(** [strconv.ParseFloat(s, 64)] on the literals the JSON scanner lets
    through: the correctly rounded value, and a range error when that
    is infinite. *)
Definition ParseFloat (s : string) : option float64 :=
  match decimal s with
  | None => None
  | Some (neg, m, e) =>
      match round64 neg m e with
      | S754_infinity _ | S754_nan => None
      | f => Some f
      end
  end.

End strconv.

(** ** encoding/json *)

(** A document that passed the scanner ([checkValid]).  Object members
    keep their order and their duplicates; a number keeps its literal. *)
#[local] Unset Elimination Schemes.
Inductive JSON : Type :=
| JNull
| JBool (b : bool)
| JNumber (lit : string)
| JString (s : string)
| JArray (elems : list JSON)
| JObject (members : list (string * JSON)).
#[local] Set Elimination Schemes.

(** [json.RawMessage]: [None] is the nil message, which holds no bytes;
    otherwise the bytes of one value, kept as that value. *)
Abbreviation RawMessage := (option JSON) (only parsing).

Module json.

Import strconv.

(** *** fold.go: matching an object key against a field name *)

(** [b & caseMask], with [caseMask = ^byte(0x20)]. *)
Definition caseMask (c : ascii) : Z := Z.land (byte c) 223.

Definition isLetter (c : ascii) : bool :=
  (65 <=? caseMask c) && (caseMask c <=? 90).

(** [simpleLetterEqualFold]: for names made of ASCII letters only,
    none of them K or S. *)
Fixpoint simpleLetterEqualFold (s t : string) : bool :=
  match s, t with
  | EmptyString, EmptyString => true
  | String sb s', String tb t' =>
      (caseMask sb =? caseMask tb) && simpleLetterEqualFold s' t'
  | _, _ => false
  end.

(** [asciiEqualFold]: for ASCII names with non-letters, no K or S. *)
Fixpoint asciiEqualFold (s t : string) : bool :=
  match s, t with
  | EmptyString, EmptyString => true
  | String sb s', String tb t' =>
      (if byte sb =? byte tb then true
       else isLetter sb && (caseMask sb =? caseMask tb))
      && asciiEqualFold s' t'
  | _, _ => false
  end.

(** [equalFoldRight]: for ASCII names with a K or an S.  A byte of the
    key at or above [utf8.RuneSelf] starts a rune, which must be the
    Kelvin sign U+212A (bytes E2 84 AA) against k or K, or the long s
    U+017F (bytes C5 BF) against s or S. *)
Fixpoint equalFoldRight (s t : string) : bool :=
  match s with
  | EmptyString => match t with EmptyString => true | _ => false end
  | String sb s' =>
      match t with
      | EmptyString => false
      | String tb t' =>
          if byte tb <? 128 then
            (if byte sb =? byte tb then true
             else isLetter sb && (caseMask sb =? caseMask tb))
            && equalFoldRight s' t'
          else if caseMask sb =? 83 then
            match t with
            | String t0 (String t1 t'') =>
                (byte t0 =? 197) && (byte t1 =? 191) && equalFoldRight s' t''
            | _ => false
            end
          else if caseMask sb =? 75 then
            match t with
            | String t0 (String t1 (String t2 t'')) =>
                (byte t0 =? 226) && (byte t1 =? 132) && (byte t2 =? 170)
                && equalFoldRight s' t''
            | _ => false
            end
          else false
      end
  end.

Fixpoint hasNonLetter (s : string) : bool :=
  match s with
  | EmptyString => false
  | String b s' => negb (isLetter b) || hasNonLetter s'
  end.

Fixpoint hasSpecial (s : string) : bool :=
  match s with
  | EmptyString => false
  | String b s' => (caseMask b =? 75) || (caseMask b =? 83) || hasSpecial s'
  end.

(** [foldFunc], on the ASCII names the program's structs have (a name
    with a byte above 0x7F would select [bytes.EqualFold]). *)
Definition foldFunc (s : string) : string -> string -> bool :=
  if hasSpecial s then equalFoldRight
  else if hasNonLetter s then asciiEqualFold
  else simpleLetterEqualFold.

Definition equalFold (name key : string) : bool := foldFunc name name key.

(** *** decode.go: finding the field of a key

    [fields] lists a struct's exported fields in declaration order, each
    under its Go name (the structs carry no tags).  An exact match comes
    first; failing that, the first field in the list that matches under
    folding. *)
Section Fields.
Context {F : Type}.

Fixpoint nameIndex (fields : list (string * F)) (key : string) : option F :=
  match fields with
  | [] => None
  | (name, f) :: fields' =>
      if String.eqb name key then Some f else nameIndex fields' key
  end.

Fixpoint foldSearch (fields : list (string * F)) (key : string) : option F :=
  match fields with
  | [] => None
  | (name, f) :: fields' =>
      if equalFold name key then Some f else foldSearch fields' key
  end.

Definition findField (fields : list (string * F)) (key : string) : option F :=
  match nameIndex fields key with
  | Some f => Some f
  | None => foldSearch fields key
  end.
End Fields.

(** [saveError]: only the first error of a decode is kept. *)
Definition saveError (saved new : option error) : option error :=
  match saved with
  | Some _ => saved
  | None => new
  end.

(** *** Storing a value into a field

    The kinds of field the program's structs have. *)
Inductive Kind : Type := String_ | Int64_ | Int_ | Float64_.

Definition typeName (k : Kind) : string :=
  match k with
  | String_ => "string"
  | Int64_ => "int64"
  | Int_ => "int"
  | Float64_ => "float64"
  end.

(** What a field holds ([reflect.Value] of one of the kinds above). *)
Inductive Value : Type :=
| VString (s : string)
| VInt (n : Z)
| VFloat (f : float64).


(** [int] is 64 bits wide on the platform the image is built for. *)
Definition bits (k : Kind) : Z := 64.

(** The [Value] word of an [UnmarshalTypeError] for a JSON value. *)
Definition valueWord (j : JSON) : string :=
  match j with
  | JNull => "null"
  | JBool _ => "bool"
  | JNumber _ => "number"
  | JString _ => "string"
  | JArray _ => "array"
  | JObject _ => "object"
  end.

(** [d.value] into a field of kind [k]: the value to set, if any, and
    the error to save, if any.  [null] sets nothing and is no error; a
    number that does not parse, or overflows, is reported with its
    literal. *)
Definition store (k : Kind) (j : JSON) : option Value * option error :=
  match j, k with
  | JNull, _ => (None, None)
  | JString s, String_ => (Some (VString s), None)
  | JNumber lit, (Int64_ | Int_) =>
      match ParseInt lit (bits k) with
      | Some n => (Some (VInt n), None)
      | None => (None, Some (UnmarshalTypeError ("number " +:+ lit) (typeName k)))
      end
  | JNumber lit, Float64_ =>
      match ParseFloat lit with
      | Some f => (Some (VFloat f), None)
      | None => (None, Some (UnmarshalTypeError ("number " +:+ lit) (typeName k)))
      end
  | _, _ => (None, Some (UnmarshalTypeError (valueWord j) (typeName k)))
  end.

(** [d.object] into a struct with fields [fields]: members in document
    order, a key without a field skipped, a later member overwriting
    what an earlier one set, a saved error not stopping the decode. *)
Section Struct.
Context {S F : Type}.
Variable fields : list (string * F).
Variable kind : F -> Kind.
Variable set : F -> Value -> S -> S.

Fixpoint object (members : list (string * JSON)) (r : S)
    (saved : option error) : S * option error :=
  match members with
  | [] => (r, saved)
  | (key, j) :: members' =>
      match findField fields key with
      | None => object members' r saved
      | Some f =>
          let '(v, err) := store (kind f) j in
          object members'
            (match v with Some x => set f x r | None => r end)
            (saveError saved err)
      end
  end.

(** [d.value] into a struct of type [typ], reached directly or through
    a non-nil pointer: an object is decoded, [null] changes nothing,
    any other value is a type error. *)
Definition value (typ : string) (j : JSON) (r : S)
    (saved : option error) : S * option error :=
  match j with
  | JObject members => object members r saved
  | JNull => (r, saved)
  | _ => (r, saveError saved (Some (UnmarshalTypeError (valueWord j) typ)))
  end.
End Struct.

End json.

(** ** The program's data *)

(** [type Inverters struct] *)
Record Inverters : Type := { ActiveCount : Z }.

(** [type Eim struct]: one reading. *)
Record Eim : Type := {
  MeasurementType : string;
  ReadingTime : Z;
  WNow : float64;
  WhLifetime : float64;
  VarhLeadLifetime : float64;
  VarhLagLifetime : float64;
  VahLifetime : float64;
  RmsCurrent : float64;
  RmsVoltage : float64;
  ReactPwr : float64;
  ApprntPwr : float64;
  PwrFactor : float64;
  WhToday : float64;
  WhLastSevenDays : float64;
  VahToday : float64;
  VarhLeadToday : float64;
  VarhLagToday : float64
}.

(** [Eim{}] and [Inverters{}] *)
Definition Eim_zero : Eim :=
  Build_Eim "" 0 float64_zero float64_zero float64_zero float64_zero
    float64_zero float64_zero float64_zero float64_zero float64_zero
    float64_zero float64_zero float64_zero float64_zero float64_zero
    float64_zero.

Definition Inverters_zero : Inverters := {| ActiveCount := 0 |}.

(** The fields of [Eim], as reflection enumerates them. *)
Inductive EimField : Type :=
| fMeasurementType | fReadingTime | fWNow | fWhLifetime | fVarhLeadLifetime
| fVarhLagLifetime | fVahLifetime | fRmsCurrent | fRmsVoltage | fReactPwr
| fApprntPwr | fPwrFactor | fWhToday | fWhLastSevenDays | fVahToday
| fVarhLeadToday | fVarhLagToday.

Definition EimFields : list (string * EimField) :=
  [ ("MeasurementType", fMeasurementType); ("ReadingTime", fReadingTime);
    ("WNow", fWNow); ("WhLifetime", fWhLifetime);
    ("VarhLeadLifetime", fVarhLeadLifetime);
    ("VarhLagLifetime", fVarhLagLifetime); ("VahLifetime", fVahLifetime);
    ("RmsCurrent", fRmsCurrent); ("RmsVoltage", fRmsVoltage);
    ("ReactPwr", fReactPwr); ("ApprntPwr", fApprntPwr);
    ("PwrFactor", fPwrFactor); ("WhToday", fWhToday);
    ("WhLastSevenDays", fWhLastSevenDays); ("VahToday", fVahToday);
    ("VarhLeadToday", fVarhLeadToday); ("VarhLagToday", fVarhLagToday) ].


Definition EimKind (f : EimField) : json.Kind :=
  match f with
  | fMeasurementType => json.String_
  | fReadingTime => json.Int64_
  | _ => json.Float64_
  end.

(** Reading a field ([reflect.Value.Field]). *)
Definition EimGet (f : EimField) (r : Eim) : json.Value :=
  match f with
  | fMeasurementType => json.VString (MeasurementType r)
  | fReadingTime => json.VInt (ReadingTime r)
  | fWNow => json.VFloat (WNow r)
  | fWhLifetime => json.VFloat (WhLifetime r)
  | fVarhLeadLifetime => json.VFloat (VarhLeadLifetime r)
  | fVarhLagLifetime => json.VFloat (VarhLagLifetime r)
  | fVahLifetime => json.VFloat (VahLifetime r)
  | fRmsCurrent => json.VFloat (RmsCurrent r)
  | fRmsVoltage => json.VFloat (RmsVoltage r)
  | fReactPwr => json.VFloat (ReactPwr r)
  | fApprntPwr => json.VFloat (ApprntPwr r)
  | fPwrFactor => json.VFloat (PwrFactor r)
  | fWhToday => json.VFloat (WhToday r)
  | fWhLastSevenDays => json.VFloat (WhLastSevenDays r)
  | fVahToday => json.VFloat (VahToday r)
  | fVarhLeadToday => json.VFloat (VarhLeadToday r)
  | fVarhLagToday => json.VFloat (VarhLagToday r)
  end.

(** Setting a field ([SetString], [SetInt], [SetFloat]); a value of
    another kind than the field's is never passed and sets nothing. *)
Definition EimSet (f : EimField) (v : json.Value) (r : Eim) : Eim :=
  let '(Build_Eim a b c d e g h i j k l m n o p q s) := r in
  match f, v with
  | fMeasurementType, json.VString x => Build_Eim x b c d e g h i j k l m n o p q s
  | fReadingTime, json.VInt x => Build_Eim a x c d e g h i j k l m n o p q s
  | fWNow, json.VFloat x => Build_Eim a b x d e g h i j k l m n o p q s
  | fWhLifetime, json.VFloat x => Build_Eim a b c x e g h i j k l m n o p q s
  | fVarhLeadLifetime, json.VFloat x => Build_Eim a b c d x g h i j k l m n o p q s
  | fVarhLagLifetime, json.VFloat x => Build_Eim a b c d e x h i j k l m n o p q s
  | fVahLifetime, json.VFloat x => Build_Eim a b c d e g x i j k l m n o p q s
  | fRmsCurrent, json.VFloat x => Build_Eim a b c d e g h x j k l m n o p q s
  | fRmsVoltage, json.VFloat x => Build_Eim a b c d e g h i x k l m n o p q s
  | fReactPwr, json.VFloat x => Build_Eim a b c d e g h i j x l m n o p q s
  | fApprntPwr, json.VFloat x => Build_Eim a b c d e g h i j k x m n o p q s
  | fPwrFactor, json.VFloat x => Build_Eim a b c d e g h i j k l x n o p q s
  | fWhToday, json.VFloat x => Build_Eim a b c d e g h i j k l m x o p q s
  | fWhLastSevenDays, json.VFloat x => Build_Eim a b c d e g h i j k l m n x p q s
  | fVahToday, json.VFloat x => Build_Eim a b c d e g h i j k l m n o x q s
  | fVarhLeadToday, json.VFloat x => Build_Eim a b c d e g h i j k l m n o p x s
  | fVarhLagToday, json.VFloat x => Build_Eim a b c d e g h i j k l m n o p q x
  | _, _ => r
  end.

Definition InvertersFields : list (string * unit) := [ ("ActiveCount", tt) ].

Definition InvertersSet (_ : unit) (v : json.Value) (i : Inverters) : Inverters :=
  match v with
  | json.VInt n => {| ActiveCount := n |}
  | _ => i
  end.

(** The anonymous struct of [apiJsonObj], which has the fields of
    [type EnvoyAPIMeasurement struct]. *)
Record EnvoyAPIMeasurement : Type := {
  Production : RawMessage;
  Consumption : RawMessage;
  Storage : RawMessage
}.

Inductive ApiField : Type := fProduction | fConsumption | fStorage.

Definition ApiFields : list (string * ApiField) :=
  [ ("Production", fProduction); ("Consumption", fConsumption);
    ("Storage", fStorage) ].

(** [RawMessage.UnmarshalJSON] keeps the bytes of any value, [null] too. *)
Definition ApiSet (f : ApiField) (j : JSON) (a : EnvoyAPIMeasurement)
    : EnvoyAPIMeasurement :=
  match f with
  | fProduction =>
      {| Production := Some j; Consumption := Consumption a; Storage := Storage a |}
  | fConsumption =>
      {| Production := Production a; Consumption := Some j; Storage := Storage a |}
  | fStorage =>
      {| Production := Production a; Consumption := Consumption a; Storage := Some j |}
  end.

(** ** The decodes of [pollEnvoy] *)

Definition unexpectedEnd : error := SyntaxError "unexpected end of JSON input".

(** [d.object] into [apiJsonObj]. *)
Fixpoint object_api (members : list (string * JSON)) (a : EnvoyAPIMeasurement)
    : EnvoyAPIMeasurement :=
  match members with
  | [] => a
  | (key, j) :: members' =>
      match json.findField ApiFields key with
      | None => object_api members' a
      | Some f => object_api members' (ApiSet f j a)
      end
  end.

(** [json.Unmarshal(jsonData, &apiJsonObj)] on a well-formed body. *)
Definition Unmarshal_api (doc : JSON) (a : EnvoyAPIMeasurement)
    : EnvoyAPIMeasurement * option error :=
  match doc with
  | JObject members => (object_api members a, None)
  | JNull => (a, None)
  | _ => (a, Some (UnmarshalTypeError (json.valueWord doc)
                     "struct { Production json.RawMessage; Consumption json.RawMessage; Storage json.RawMessage }"))
  end.

Definition value_Eim : JSON -> Eim -> option error -> Eim * option error :=
  json.value EimFields EimKind EimSet "main.Eim".

Definition value_Inverters
    : JSON -> Inverters -> option error -> Inverters * option error :=
  json.value InvertersFields (fun _ => json.Int_) InvertersSet "main.Inverters".

(** What an element of [productionObj] points to. *)
Inductive Pointer : Type := ptr_inverters | ptr_prodReadings.

(** [d.array] into [productionObj], of which [slice] is the part not yet
    reached.  Array element [i] is decoded into slice element [i]: through
    the pointer the interface holds, except that [null] only resets the
    interface to nil.  Past the end of the slice, the slice grows by nil
    interfaces, which take any value.  When the array is shorter, the
    slice is cut to its length; nothing is reported in either case. *)
Fixpoint array_productionObj (elems : list JSON) (slice : list Pointer)
    (inverters : Inverters) (prodReadings : Eim) (saved : option error)
    : Inverters * Eim * option error :=
  match elems with
  | [] => (inverters, prodReadings, saved)
  | e :: elems' =>
      match slice, e with
      | [], _ => array_productionObj elems' [] inverters prodReadings saved
      | _ :: slice', JNull =>
          array_productionObj elems' slice' inverters prodReadings saved
      | ptr_inverters :: slice', _ =>
          let '(inverters', saved') := value_Inverters e inverters saved in
          array_productionObj elems' slice' inverters' prodReadings saved'
      | ptr_prodReadings :: slice', _ =>
          let '(prodReadings', saved') := value_Eim e prodReadings saved in
          array_productionObj elems' slice' inverters prodReadings' saved'
      end
  end.

(** [json.Unmarshal(apiJsonObj.Production, &productionObj)] with
    [productionObj := []interface{}{&inverters, &prodReadings}]. *)
Definition Unmarshal_production (raw : RawMessage) (inverters : Inverters)
    (prodReadings : Eim) : Inverters * Eim * option error :=
  match raw with
  | None => (inverters, prodReadings, Some unexpectedEnd)
  | Some (JArray elems) =>
      array_productionObj elems [ptr_inverters; ptr_prodReadings]
        inverters prodReadings None
  | Some JNull => (inverters, prodReadings, None)
  | Some j =>
      (inverters, prodReadings,
       Some (UnmarshalTypeError (json.valueWord j) "[]interface {}"))
  end.

(** [d.array] into [consumptionReadings]: every array element gets a
    fresh slice element, zero before its value is decoded into it. *)
Fixpoint array_Eim (elems : list JSON) (saved : option error)
    : list Eim * option error :=
  match elems with
  | [] => ([], saved)
  | e :: elems' =>
      let '(r, saved') := value_Eim e Eim_zero saved in
      let '(rs, saved'') := array_Eim elems' saved' in
      (r :: rs, saved'')
  end.

(** [json.Unmarshal(apiJsonObj.Consumption, &consumptionReadings)] with
    [consumptionReadings = []Eim{}].  A nil and an empty slice are both
    the empty list. *)
Definition Unmarshal_consumption (raw : RawMessage) : list Eim * option error :=
  match raw with
  | None => ([], Some unexpectedEnd)
  | Some (JArray elems) => array_Eim elems None
  | Some JNull => ([], None)
  | Some j => ([], Some (UnmarshalTypeError (json.valueWord j) "[]main.Eim"))
  end.

(** ** The outside world *)

(** [time.Time], as [time.Unix] builds it. *)
Record Time : Type := { sec : Z; nsec : Z }.

Definition Unix (s ns : Z) : Time :=
  if (ns <? 0) || (1000000000 <=? ns)
  then {| sec := s + ns / 1000000000; nsec := ns mod 1000000000 |}
  else {| sec := s; nsec := ns |}.

(** A point as the program hands it to [NewPoint]: measurement name,
    tags, fields, time. *)
Record Point : Type := {
  pt_name : string;
  pt_tags : gmap string string;
  pt_fields : gmap string float64;
  pt_time : Time
}.

(** A database client is known by its handle. *)
Abbreviation Client := nat (only parsing).

(** What the device and the network make of one request. *)
Inductive Body : Type :=
| Malformed (msg : string)   (* bytes the JSON scanner rejects *)
| WellFormed (doc : JSON).

Inductive Exchange : Type :=
| NewRequest_fails (msg : string)   (* http.NewRequest *)
| Do_fails (msg : string)           (* envoyClient.Do, bounded by the 2 s timeout *)
| ReadAll_fails (msg : string)      (* ioutil.ReadAll *)
| Reads (body : Body).

(** The lines [fmt.Printf] writes, by format and arguments. *)
Inductive Line : Type :=
| production_line (readingTime : Z) (wNow : float64)
| reading_line (readingTime : Z) (measurementType : string) (wNow : float64)
| error_line (err : error).

(** The batch of the 1.x client. *)
Record BatchPoints : Type := {
  bp_database : string;
  bp_precision : string;
  bp_points : list Point
}.

(** What a run does that can be seen from outside its variables: entries
    into the program's own functions, and calls out of the program. *)
Inductive Event : Type :=
| call_poll
| call_pollEnvoy
| call_writeToInflux
| Get (url : string)
| Printf (l : Line)
| NewPoint (p : Point)
| NewClient (c : Client) (config : list string)
| Write (c : Client) (bp : BatchPoints)
| WritePoint (c : Client) (org bucket : string) (p : Point)
| Close (c : Client).

Record World : Type := {
  events : list Event;   (* oldest first *)
  store : list Point;    (* the points the database has accepted, oldest first *)
  clients : nat          (* database clients constructed by this process *)
}.

Definition emit (e : Event) (w : World) : World :=
  {| events := events w ++ [e]; store := store w; clients := clients w |}.

Definition accept (ps : list Point) (w : World) : World :=
  {| events := events w; store := store w ++ ps; clients := clients w |}.

(** A fresh client: its handle is the number of clients made before. *)
Definition construct (config : list string) (w : World) : Client * World :=
  (clients w,
   {| events := events w ++ [NewClient (clients w) config];
      store := store w; clients := S (clients w) |}).

(** The world a process starts in: the database holds [db]. *)
Definition boot (db : list Point) : World :=
  {| events := []; store := db; clients := 0 |}.

(** How a process stands: blocked in the [select] of the loop, returned
    from [main], or brought down by a panic. *)
Inductive Status : Type :=
| Running
| Returned
| Panicked (reason : option error).   (* [None]: a nil dereference *)

(** Exit status of the process, once it has one. *)
Definition exit_status (s : Status) : option Z :=
  match s with
  | Running => None
  | Returned => Some 0
  | Panicked _ => Some 2
  end.

(** ** pollEnvoy

    The function reads [context.envoyHostPtr] and [context.envoyClient]
    only, and is the same in both programs; [host] is the former and
    [exchange] what the latter's request meets. *)
Definition pollEnvoy (host : string) (exchange : string -> Exchange) (w : World)
    : Eim * list Eim * option error * World :=
  let w := emit call_pollEnvoy w in
  let prodReadings := Eim_zero in
  let consumptionReadings : list Eim := [] in
  let envoyUrl := "http://" +:+ host +:+ "/production.json?details=1" in
  match exchange envoyUrl with
  | NewRequest_fails msg =>
      (prodReadings, consumptionReadings, Some (NetworkError msg), w)
  | Do_fails msg =>
      (prodReadings, consumptionReadings, Some (NetworkError msg),
       emit (Get envoyUrl) w)
  | ReadAll_fails msg =>
      (prodReadings, consumptionReadings, Some (NetworkError msg),
       emit (Get envoyUrl) w)
  | Reads jsonData =>
      let w := emit (Get envoyUrl) w in
      match jsonData with
      | Malformed msg =>
          (prodReadings, consumptionReadings, Some (SyntaxError msg), w)
      | WellFormed doc =>
          let '(apiJsonObj, err) :=
            Unmarshal_api doc {| Production := None; Consumption := None;
                                 Storage := None |} in
          match err with
          | Some _ => (prodReadings, consumptionReadings, err, w)
          | None =>
              let inverters := Inverters_zero in
              let prodReadings := Eim_zero in
              let '(inverters, prodReadings, err) :=
                Unmarshal_production (Production apiJsonObj)
                  inverters prodReadings in
              match err with
              | Some _ => (prodReadings, consumptionReadings, err, w)
              | None =>
                  let w :=
                    emit (Printf (production_line (ReadingTime prodReadings)
                                    (WNow prodReadings))) w in
                  let '(consumptionReadings, err) :=
                    Unmarshal_consumption (Consumption apiJsonObj) in
                  match err with
                  | Some _ => (prodReadings, consumptionReadings, err, w)
                  | None =>
                      let w :=
                        foldl (fun w eim =>
                                 emit (Printf (reading_line (ReadingTime eim)
                                                 (MeasurementType eim)
                                                 (WNow eim))) w)
                              w consumptionReadings in
                      (prodReadings, consumptionReadings, err, w)
                  end
              end
          end
      end
  end.

(** The point the loop of [writeToInflux] builds for a reading; both
    programs pass the same four arguments to [NewPoint]. *)
Definition pointOf (measurementName : string) (reading : Eim) : Point :=
  let tags : gmap string string := {[ "type" := MeasurementType reading ]} in
  let fields : gmap string float64 := {[ "watts" := WNow reading ]} in
  let createdTime := Unix (ReadingTime reading) 0 in
  {| pt_name := measurementName; pt_tags := tags; pt_fields := fields;
     pt_time := createdTime |}.

(** ** influxEnvoyStats/influxEnvoyStats.go: the InfluxDB 1.x client *)

Module InfluxV1.

(** The values of the command line flags. *)
Record Flags : Type := {
  flag_e : string;      (* default "envoy" *)
  flag_dba : string;    (* default "http://localhost:8086" *)
  flag_dbn : string;    (* default "solar" *)
  flag_dbu : string;    (* default "user" *)
  flag_dbp : string;    (* default "pw" *)
  flag_m : string;      (* default "readings" *)
  flag_loop : Z         (* a time.Duration, in nanoseconds; default 0 *)
}.

(** [type Context struct].  [envoyClient] is constant and left out. *)
Record Context : Type := {
  envoyHostPtr : string;
  influxAddrPtr : string;
  dbNamePtr : string;
  dbUserPtr : string;
  dbPwPtr : string;
  measurementNamePtr : string;
  loopIntervalPtr : Z;
  influxClient : option Client
}.

Definition set_influxClient (c : option Client) (context : Context) : Context :=
  {| envoyHostPtr := envoyHostPtr context;
     influxAddrPtr := influxAddrPtr context;
     dbNamePtr := dbNamePtr context;
     dbUserPtr := dbUserPtr context;
     dbPwPtr := dbPwPtr context;
     measurementNamePtr := measurementNamePtr context;
     loopIntervalPtr := loopIntervalPtr context;
     influxClient := c |}.

(** What the outside does during one cycle: the device and the network,
    the client library's checks, and the database. *)
Record Env : Type := {
  exchange : string -> Exchange;
  NewPoint_err : Point -> option error;      (* client.NewPoint *)
  NewHTTPClient_err : option error;          (* client.NewHTTPClient *)
  Write_err : BatchPoints -> option error    (* influxClient.Write *)
}.

(** The units [time.ParseDuration] knows; the two spellings of the
    micro sign are given by their bytes. *)
Definition units : list string :=
  [ "ns"; "us";
    String (ascii_of_nat 194) (String (ascii_of_nat 181) "s");
    String (ascii_of_nat 206) (String (ascii_of_nat 188) "s");
    "ms"; "s"; "m"; "h" ].

(** [client.NewBatchPoints]: an empty precision means "ns", and the
    precision must be a duration unit. *)
Definition NewBatchPoints (database precision : string) : error + BatchPoints :=
  let precision := if String.eqb precision "" then "ns" else precision in
  if bool_decide (precision ∈ units)
  then inr {| bp_database := database; bp_precision := precision;
              bp_points := [] |}
  else inl (WriteError ("time: unknown unit in duration 1" +:+ precision)).

Definition AddPoint (p : Point) (bp : BatchPoints) : BatchPoints :=
  {| bp_database := bp_database bp; bp_precision := bp_precision bp;
     bp_points := bp_points bp ++ [p] |}.

(** The loop [for _, reading := range readings].  Its first test of
    [err] sees the nil of the call before it and is left out. *)
Fixpoint range_readings (env : Env) (measurementName : string)
    (readings : list Eim) (bp : BatchPoints) (w : World)
    : (error + BatchPoints) * World :=
  match readings with
  | [] => (inr bp, w)
  | reading :: readings' =>
      let pt := pointOf measurementName reading in
      let w := emit (NewPoint pt) w in
      match NewPoint_err env pt with
      | Some err => (inl err, w)
      | None => range_readings env measurementName readings' (AddPoint pt bp) w
      end
  end.

Definition writeToInflux (env : Env) (context : Context) (w : World)
    (prodReadings : Eim) (consumptionReadings : list Eim)
    : Context * World * option error :=
  let w := emit call_writeToInflux w in
  match NewBatchPoints (dbNamePtr context) "s" with
  | inl err => (context, w, Some err)
  | inr bp =>
      let readings := consumptionReadings ++ [prodReadings] in
      match range_readings env (measurementNamePtr context) readings bp w with
      | (inl err, w) => (context, w, Some err)
      | (inr bp, w) =>
          (* Connect to influxdb specified in commandline arguments *)
          let connected : error + (Client * Context * World) :=
            match influxClient context with
            | Some c => inr (c, context, w)
            | None =>
                match NewHTTPClient_err env with
                | Some err => inl err
                | None =>
                    let '(c, w) :=
                      construct [influxAddrPtr context; dbUserPtr context;
                                 dbPwPtr context] w in
                    inr (c, set_influxClient (Some c) context, w)
                end
            end in
          match connected with
          | inl err => (set_influxClient None context, w, Some err)
          | inr (c, context, w) =>
              (* Write the batch *)
              let w := emit (Write c bp) w in
              match Write_err env bp with
              | Some err => (context, w, Some err)
              | None => (context, accept (bp_points bp) w, None)
              end
          end
      end
  end.

Definition poll (env : Env) (context : Context) (w : World)
    : Context * World * option error :=
  let w := emit call_poll w in
  let '(prodReadings, consumptionReadings, err, w) :=
    pollEnvoy (envoyHostPtr context) (exchange env) w in
  match err with
  | Some _ => (context, w, err)
  | None => writeToInflux env context w prodReadings consumptionReadings
  end.

(** The deferred function of [main]. *)
Definition deferred (context : Context) (w : World) : World :=
  match influxClient context with
  | Some c => emit (Close c) w
  | None => w
  end.

(** The [for]/[select] loop, over the ticks received so far: [env k] is
    what the outside does during the cycle of tick [k].  Nothing sends
    on or closes [quit], so its case is never ready, and the loop has
    no other way out. *)
Fixpoint loop (env : nat -> Env) (k ticks : nat) (context : Context)
    (w : World) : Context * World :=
  match ticks with
  | O => (context, w)
  | S ticks' =>
      let '(context, w, err) := poll (env k) context w in
      let w :=
        match err with
        | Some e => emit (Printf (error_line e)) w
        | None => w
        end in
      loop env (S k) ticks' context w
  end.

(** The [Context] literal of [main]: the flags, and no client yet. *)
Definition newContext (flags : Flags) : Context :=
  {| envoyHostPtr := flag_e flags;
     influxAddrPtr := flag_dba flags;
     dbNamePtr := flag_dbn flags;
     dbUserPtr := flag_dbu flags;
     dbPwPtr := flag_dbp flags;
     measurementNamePtr := flag_m flags;
     loopIntervalPtr := flag_loop flags;
     influxClient := None |}.

(** [main], observed when the ticker has delivered [ticks] ticks. *)
Definition main (flags : Flags) (db : list Point) (env : nat -> Env)
    (ticks : nat) : Status * Context * World :=
  let context := newContext flags in
  let w := boot db in
  if 0 <? loopIntervalPtr context then
    let '(context, w) := loop env 0 ticks context w in
    (Running, context, w)
  else
    let '(context, w, err) := poll (env 0%nat) context w in
    match err with
    | Some e => (Panicked (Some e), context, deferred context w)
    | None => (Returned, context, deferred context w)
    end.

End InfluxV1.

(** ** The top-level program: the InfluxDB 2.x client *)

Module InfluxV2.

Record Flags : Type := {
  flag_e : string;      (* default "envoy" *)
  flag_dba : string;    (* default "http://localhost:8086" *)
  flag_dbo : string;    (* default "solar" *)
  flag_dbn : string;    (* default "solar" *)
  flag_dbu : string;    (* default "user" *)
  flag_dbp : string;    (* default "pw" *)
  flag_m : string;      (* default "readings" *)
  flag_loop : Z         (* a time.Duration, in nanoseconds; default 0 *)
}.

(** [api.WriteAPIBlocking], as [WriteAPIBlocking(org, bucket)] makes it. *)
Record WriteAPI : Type := {
  api_client : Client;
  api_org : string;
  api_bucket : string
}.

(** [type EnvoyMonitor struct].  [envoyClient] is constant and left out. *)
Record EnvoyMonitor : Type := {
  envoyHostPtr : string;
  influxAddrPtr : string;
  dbOrgPtr : string;
  dbBucketPtr : string;
  dbUserPtr : string;
  dbPwPtr : string;
  measurementNamePtr : string;
  loopIntervalPtr : Z;
  influxClient : option Client;
  writeAPI : option WriteAPI
}.

Definition set_influx (c : option Client) (api : option WriteAPI)
    (monitor : EnvoyMonitor) : EnvoyMonitor :=
  {| envoyHostPtr := envoyHostPtr monitor;
     influxAddrPtr := influxAddrPtr monitor;
     dbOrgPtr := dbOrgPtr monitor;
     dbBucketPtr := dbBucketPtr monitor;
     dbUserPtr := dbUserPtr monitor;
     dbPwPtr := dbPwPtr monitor;
     measurementNamePtr := measurementNamePtr monitor;
     loopIntervalPtr := loopIntervalPtr monitor;
     influxClient := c;
     writeAPI := api |}.

(** What the outside does during one cycle: the device and the network,
    and the database's answer to the [i]th [WritePoint] of the cycle. *)
Record Env : Type := {
  exchange : string -> Exchange;
  WritePoint_err : nat -> Point -> option error
}.

(** How a call ends: it returns its [err], or it dereferences nil. *)
Inductive Return : Type :=
| returns (err : option error)
| panics.

(** The loop [for _, reading := range readings]; [i] counts the points
    written before. *)
Fixpoint range_readings (env : Env) (measurementName : string)
    (api : option WriteAPI) (readings : list Eim) (i : nat) (w : World)
    : Return * World :=
  match readings with
  | [] => (returns None, w)
  | reading :: readings' =>
      let pt := pointOf measurementName reading in
      let w := emit (NewPoint pt) w in
      match api with
      | None => (panics, w)
      | Some a =>
          let w := emit (WritePoint (api_client a) (api_org a) (api_bucket a) pt) w in
          match WritePoint_err env i pt with
          | Some err => (returns (Some err), w)
          | None =>
              range_readings env measurementName api readings' (S i)
                (accept [pt] w)
          end
      end
  end.

Definition writeToInflux (env : Env) (monitor : EnvoyMonitor) (w : World)
    (prodReadings : Eim) (consumptionReadings : list Eim)
    : EnvoyMonitor * World * Return :=
  let w := emit call_writeToInflux w in
  (* Connect to influxdb specified in commandline arguments *)
  let '(monitor, w) :=
    match influxClient monitor with
    | None =>
        let '(c, w) :=
          construct [influxAddrPtr monitor;
                     dbUserPtr monitor +:+ ":" +:+ dbPwPtr monitor] w in
        (set_influx (Some c)
           (Some {| api_client := c; api_org := dbOrgPtr monitor;
                    api_bucket := dbBucketPtr monitor |}) monitor, w)
    | Some _ => (monitor, w)
    end in
  let readings := consumptionReadings ++ [prodReadings] in
  let '(r, w) :=
    range_readings env (measurementNamePtr monitor) (writeAPI monitor)
      readings 0 w in
  (monitor, w, r).

Definition poll (env : Env) (monitor : EnvoyMonitor) (w : World)
    : EnvoyMonitor * World * Return :=
  let w := emit call_poll w in
  let '(prodReadings, consumptionReadings, err, w) :=
    pollEnvoy (envoyHostPtr monitor) (exchange env) w in
  match err with
  | Some _ => (monitor, w, returns err)
  | None => writeToInflux env monitor w prodReadings consumptionReadings
  end.

(** The deferred function of [main]. *)
Definition deferred (monitor : EnvoyMonitor) (w : World) : World :=
  match influxClient monitor with
  | Some c => emit (Close c) w
  | None => w
  end.

(** The [for]/[select] loop, over the ticks received so far: [env k] is
    what the outside does during the cycle of tick [k].  Nothing sends
    on or closes [quit], so its case is never ready; only a panic in a
    cycle leaves the loop. *)
Fixpoint loop (env : nat -> Env) (k ticks : nat) (monitor : EnvoyMonitor)
    (w : World) : Status * EnvoyMonitor * World :=
  match ticks with
  | O => (Running, monitor, w)
  | S ticks' =>
      match poll (env k) monitor w with
      | (monitor, w, panics) => (Panicked None, monitor, w)
      | (monitor, w, returns err) =>
          let w :=
            match err with
            | Some e => emit (Printf (error_line e)) w
            | None => w
            end in
          loop env (S k) ticks' monitor w
      end
  end.

(** The [EnvoyMonitor] literal of [main]: the flags, and no client yet. *)
Definition newMonitor (flags : Flags) : EnvoyMonitor :=
  {| envoyHostPtr := flag_e flags;
     influxAddrPtr := flag_dba flags;
     dbOrgPtr := flag_dbo flags;
     dbBucketPtr := flag_dbn flags;
     dbUserPtr := flag_dbu flags;
     dbPwPtr := flag_dbp flags;
     measurementNamePtr := flag_m flags;
     loopIntervalPtr := flag_loop flags;
     influxClient := None;
     writeAPI := None |}.

(** [main], observed when the ticker has delivered [ticks] ticks. *)
Definition main (flags : Flags) (db : list Point) (env : nat -> Env)
    (ticks : nat) : Status * EnvoyMonitor * World :=
  let monitor := newMonitor flags in
  let w := boot db in
  if 0 <? loopIntervalPtr monitor then
    match loop env 0 ticks monitor w with
    | (Running, monitor, w) => (Running, monitor, w)
    | (s, monitor, w) => (s, monitor, deferred monitor w)
    end
  else
    match poll (env 0%nat) monitor w with
    | (monitor, w, returns None) => (Returned, monitor, deferred monitor w)
    | (monitor, w, returns (Some e)) =>
        (Panicked (Some e), monitor, deferred monitor w)
    | (monitor, w, panics) => (Panicked None, monitor, deferred monitor w)
    end.

End InfluxV2.

(** * Vocabulary of the properties *)

(** ** Keys and fields *)

(** [folded key] is the key with every ASCII byte stripped of its case
    bit and the two runes that Go folds onto ASCII letters (the long s
    onto S, the Kelvin sign onto K) replaced by those letters. *)
Fixpoint folded (t : string) : list Z :=
  match t with
  | EmptyString => []
  | String t0 t' =>
      if strconv.byte t0 <? 128 then json.caseMask t0 :: folded t'
      else
        match t' with
        | String t1 t'' =>
            if (strconv.byte t0 =? 197) && (strconv.byte t1 =? 191)
            then 83 :: folded t''
            else
              match t'' with
              | String t2 t''' =>
                  if (strconv.byte t0 =? 226) && (strconv.byte t1 =? 132)
                     && (strconv.byte t2 =? 170)
                  then 75 :: folded t'''
                  else strconv.byte t0 :: folded t'
              | EmptyString => strconv.byte t0 :: folded t'
              end
        | EmptyString => [strconv.byte t0]
        end
  end.

(** Two keys Go's field matching cannot tell apart. *)
Definition sameFold (a b : string) : Prop := folded a = folded b.

#[global] Instance sameFold_dec a b : Decision (sameFold a b).
Proof. unfold sameFold. apply _. Defined.

(** A name with the case bit of every byte cleared. *)
Fixpoint masked (s : string) : list Z :=
  match s with
  | EmptyString => []
  | String c s' => json.caseMask c :: masked s'
  end.

(** [prodReadings], or an element of [consumptionReadings], after the
    members of a reading object are decoded into a zero [Eim]; and the
    error saved on the way. *)
Definition decodeReading (members : list (string * JSON)) : Eim * option error :=
  value_Eim (JObject members) Eim_zero None.

#[global] Instance EimField_eq_dec : EqDecision EimField.
Proof. solve_decision. Defined.

(** The reading a JSON value decodes to, from a zero [Eim]. *)
Definition readingOf (j : JSON) : Eim := (value_Eim j Eim_zero None).1.

(** ** Device documents *)





(** The URL [pollEnvoy] requests. *)
Definition envoyUrl (host : string) : string :=
  "http://" +:+ host +:+ "/production.json?details=1".


(** Every error a decode saves is a decode error. *)
Definition savedDecodeError (saved : option error) : Prop :=
  match saved with
  | Some e => DecodeError e
  | None => True
  end.

(** ** Events *)

(** A cycle begins where [poll] is entered. *)
Definition isCycle (e : Event) : bool :=
  match e with call_poll => true | _ => false end.

(** The cycles a process has run. *)
Definition cycles (w : World) : nat := length (List.filter isCycle (events w)).

(** The events of the writer: its entry and every call on the client. *)
Definition isWriterEvent (e : Event) : bool :=
  match e with
  | call_writeToInflux | NewPoint _ | NewClient _ _ | Write _ _
  | WritePoint _ _ _ _ | Close _ => true
  | _ => false
  end.

(** The points an event hands to the database. *)
Definition handed (e : Event) : list Point :=
  match e with
  | Write _ bp => bp_points bp
  | WritePoint _ _ _ p => [p]
  | _ => []
  end.

(** [w'] is [w] after the events [new], which leave the database and the
    clients as they are. *)
Definition after (w : World) (new : list Event) (w' : World) : Prop :=
  events w' = events w ++ new /\ store w' = store w /\ clients w' = clients w.

(** [pollEnvoy] only adds events of its own: its entry, the request and
    the lines it prints. *)
Definition isEnvoyEvent (e : Event) : bool :=
  match e with
  | call_pollEnvoy | Get _ | Printf (production_line _ _)
  | Printf (reading_line _ _ _) => true
  | _ => false
  end.

(** The monitor never holds a client without its write API. *)
Definition wired (monitor : InfluxV2.EnvoyMonitor) : Prop :=
  InfluxV2.influxClient monitor = None \/ is_Some (InfluxV2.writeAPI monitor).

(** The world after the loop has printed the error of a cycle, if any. *)
Definition printed (err : option error) (w : World) : World :=
  match err with
  | Some e => emit (Printf (error_line e)) w
  | None => w
  end.

(** ** Sample data: a device document, flags, environments *)

Definition sampleInverters : JSON :=
  JObject [ ("type", JString "inverters"); ("activeCount", JNumber "12");
            ("readingTime", JNumber "0"); ("wNow", JNumber "0");
            ("whLifetime", JNumber "0") ].

Definition sampleProduction : JSON :=
  JObject [ ("type", JString "eim"); ("activeCount", JNumber "1");
            ("measurementType", JString "production");
            ("readingTime", JNumber "1700000000"); ("wNow", JNumber "250.5");
            ("whLifetime", JNumber "8123456.25"); ("rmsVoltage", JNumber "241.3");
            ("pwrFactor", JNumber "0.97"); ("lines", JArray [JObject []]) ].

Definition sampleConsumption : list JSON :=
  [ JObject [ ("type", JString "eim");
              ("measurementType", JString "total-consumption");
              ("readingTime", JNumber "1700000000"); ("wNow", JNumber "812.75") ];
    JObject [ ("type", JString "eim");
              ("measurementType", JString "net-consumption");
              ("readingTime", JNumber "1700000001"); ("wNow", JNumber "-562.25") ] ].

Definition sampleStorage : JSON :=
  JArray [ JObject [ ("type", JString "acb"); ("activeCount", JNumber "0") ] ].

Definition deviceMembers (production consumption storage : JSON)
    : list (string * JSON) :=
  [ ("production", production); ("consumption", consumption);
    ("storage", storage) ].

Definition sampleMembers : list (string * JSON) :=
  deviceMembers (JArray [sampleInverters; sampleProduction])
    (JArray sampleConsumption) sampleStorage.

(** A device that answers every request with the same document. *)
Definition answers (doc : JSON) : string -> Exchange :=
  fun _ => Reads (WellFormed doc).

(** The reading of the specification's example. *)
Definition sampleReading : Eim := readingOf sampleProduction.

Definition flagsV1 (loop : Z) : InfluxV1.Flags :=
  {| InfluxV1.flag_e := "envoy"; InfluxV1.flag_dba := "http://localhost:8086";
     InfluxV1.flag_dbn := "solar"; InfluxV1.flag_dbu := "user";
     InfluxV1.flag_dbp := "pw"; InfluxV1.flag_m := "readings";
     InfluxV1.flag_loop := loop |}.

Definition flagsV2 (loop : Z) : InfluxV2.Flags :=
  {| InfluxV2.flag_e := "envoy"; InfluxV2.flag_dba := "http://localhost:8086";
     InfluxV2.flag_dbo := "solar"; InfluxV2.flag_dbn := "solar";
     InfluxV2.flag_dbu := "user"; InfluxV2.flag_dbp := "pw";
     InfluxV2.flag_m := "readings"; InfluxV2.flag_loop := loop |}.

(** [models.NewPoint] of the 1.x client refuses a time outside the range
    of a 64-bit count of nanoseconds. *)
Definition timeOutOfRange (p : Point) : option error :=
  if (sec (pt_time p) * 1000000000 <? - 2 ^ 63 + 2)
     || (2 ^ 63 - 2 <? sec (pt_time p) * 1000000000)
  then Some (WriteError "time outside range") else None.

(** A cycle in which the device answers [x] and the database accepts. *)
Definition envV1 (x : string -> Exchange) : InfluxV1.Env :=
  {| InfluxV1.exchange := x; InfluxV1.NewPoint_err := timeOutOfRange;
     InfluxV1.NewHTTPClient_err := None;
     InfluxV1.Write_err := fun _ => None |}.

Definition envV2 (x : string -> Exchange) : InfluxV2.Env :=
  {| InfluxV2.exchange := x; InfluxV2.WritePoint_err := fun _ _ => None |}.

(** A device that does not answer. *)
Definition unreachable : string -> Exchange :=
  fun _ => Do_fails "context deadline exceeded".

(** [time.Second] *)
Definition second : Z := 1000000000.

(** ** Runs *)

(** A sequence of invocations of [writeToInflux] in one process, each
    with the outside of its cycle and the readings it is given. *)
Fixpoint writesV1 (calls : list (InfluxV1.Env * Eim * list Eim))
    (context : InfluxV1.Context) (w : World) : InfluxV1.Context * World :=
  match calls with
  | [] => (context, w)
  | (env, prodReadings, consumptionReadings) :: calls' =>
      let '(context, w, _) :=
        InfluxV1.writeToInflux env context w prodReadings consumptionReadings in
      writesV1 calls' context w
  end.

(** In the 2.x program an invocation that panics ends the process. *)
Fixpoint writesV2 (calls : list (InfluxV2.Env * Eim * list Eim))
    (monitor : InfluxV2.EnvoyMonitor) (w : World)
    : InfluxV2.EnvoyMonitor * World :=
  match calls with
  | [] => (monitor, w)
  | (env, prodReadings, consumptionReadings) :: calls' =>
      match
        InfluxV2.writeToInflux env monitor w prodReadings consumptionReadings
      with
      | (monitor, w, InfluxV2.returns _) => writesV2 calls' monitor w
      | (monitor, w, InfluxV2.panics) => (monitor, w)
      end
  end.

(** A reading whose time lies beyond the year 2262. *)
Definition lateReading : Eim :=
  readingOf (JObject [ ("measurementType", JString "production");
                       ("readingTime", JNumber "99999999999");
                       ("wNow", JNumber "250.5") ]).





(** ** Further vocabulary: sub-documents, errors, bounds *)

Definition ApiName (f : ApiField) : string :=
  match f with
  | fProduction => "Production"
  | fConsumption => "Consumption"
  | fStorage => "Storage"
  end.

Definition ApiGet (f : ApiField) (a : EnvoyAPIMeasurement) : RawMessage :=
  match f with
  | fProduction => Production a
  | fConsumption => Consumption a
  | fStorage => Storage a
  end.

(** [apiJsonObj] before the first decode. *)
Definition api_zero : EnvoyAPIMeasurement :=
  {| Production := None; Consumption := None; Storage := None |}.

(** The error the decode of one value into a zero [Eim] saves. *)
Definition errorOf (j : JSON) : option error := (value_Eim j Eim_zero None).2.

(** The first error among the elements of an array of readings. *)
Fixpoint firstError (es : list JSON) : option error :=
  match es with
  | [] => None
  | e :: es' => json.saveError (errorOf e) (firstError es')
  end.

(** A float that is a number: a zero or a finite value. *)
Definition finite (x : float64) : bool :=
  match x with
  | S754_zero _ | S754_finite _ _ _ => true
  | _ => false
  end.

(** A field value within the bounds of its Go type. *)
Definition boundedValue (v : json.Value) : Prop :=
  match v with
  | json.VString _ => True
  | json.VInt n => - 2 ^ 63 <= n < 2 ^ 63
  | json.VFloat x => finite x = true
  end.

Definition boundedReading (r : Eim) : Prop :=
  forall f, boundedValue (EimGet f r).

(** A member that sets no field: its key names none, or its value is
    [null] or not of the field's type. *)
Definition setsNothing (key : string) (j : JSON) : Prop :=
  forall f, json.findField EimFields key = Some f ->
            (json.store (EimKind f) j).1 = None.

(** The line [pollEnvoy] prints for a consumption reading. *)
Definition readingLine (eim : Eim) : Event :=
  Printf (reading_line (ReadingTime eim) (MeasurementType eim) (WNow eim)).

(** The process holds no client and has made none, or holds the one
    client it has made. *)
Definition oneClient (held : option Client) (w : World) : Prop :=
  (held = None /\ clients w = 0%nat) \/ (held = Some 0%nat /\ clients w = 1%nat).

(** The client an event closes. *)
Definition closeOf (e : Event) : option Client :=
  match e with Close c => Some c | _ => None end.

(** The clients a process has closed, oldest first. *)
Definition closed (w : World) : list Client := omap closeOf (events w).

(** The outside accepts the points of [readings] from the 1.x program:
    [NewPoint] builds each of them, a client can be made where none is
    held, and [Write] takes their batch. *)
Definition acceptsV1 (env : InfluxV1.Env) (context : InfluxV1.Context)
    (readings : list Eim) : Prop :=
  let pts := pointOf (InfluxV1.measurementNamePtr context) <$> readings in
  Forall (fun p => InfluxV1.NewPoint_err env p = None) pts
  /\ (InfluxV1.influxClient context = None ->
      InfluxV1.NewHTTPClient_err env = None)
  /\ InfluxV1.Write_err env
       {| bp_database := InfluxV1.dbNamePtr context; bp_precision := "s";
          bp_points := pts |} = None.

(** The database accepts the points of [readings] from the 2.x program,
    each at its place in the cycle. *)
Definition acceptsV2 (env : InfluxV2.Env) (monitor : InfluxV2.EnvoyMonitor)
    (readings : list Eim) : Prop :=
  forall k q, readings !! k = Some q ->
    InfluxV2.WritePoint_err env k
      (pointOf (InfluxV2.measurementNamePtr monitor) q) = None.

(** The URLs of the requests among some events. *)
Definition requests (l : list Event) : list string :=
  omap (fun e => match e with Get url => Some url | _ => None end) l.

(** * Properties *)

(** ** Key matching *)

Section Folding.
Import strconv json.

Ltac each_byte c := destruct c as [[] [] [] [] [] [] [] []]; vm_compute; try done.

Lemma letter_ascii c : isLetter c = true -> (byte c <? 128) = true.
Proof. each_byte c. Qed.

Lemma letter_mask c : isLetter c = true -> 65 <= caseMask c <= 90.
Proof. each_byte c; intros _; split; discriminate. Qed.

Lemma mask_letter c d :
  isLetter c = true -> caseMask c = caseMask d -> isLetter d = true.
Proof. unfold isLetter. by intros H <-. Qed.

Lemma high_mask c : (byte c <? 128) = false -> 128 <= caseMask c.
Proof. each_byte c; intros _; discriminate. Qed.

Lemma folded_letters s : hasNonLetter s = false -> folded s = masked s.
Proof.
  induction s as [|c s IH]; simpl; [done|].
  intros [Hc Hs]%orb_false_elim. apply negb_false_iff in Hc.
  rewrite (letter_ascii c Hc). f_equal. auto.
Qed.

Lemma equalFoldRight_folded s :
  hasNonLetter s = false ->
  forall t, equalFoldRight s t = true <-> folded t = masked s.
Proof.
  induction s as [|sb s IH]; intros Hs t.
  - destruct t as [|tb t]; simpl; [done|].
    split; [done|]. destruct (byte tb <? 128); [done|].
    destruct t as [|t1 t]; [done|].
    destruct (_ && _); [done|].
    destruct t as [|t2 t]; [done|]. by destruct (_ && _).
  - simpl in Hs. apply orb_false_elim in Hs as [Hsb Hs].
    apply negb_false_iff in Hsb. specialize (IH Hs).
    pose proof (letter_mask sb Hsb) as Hm.
    destruct t as [|tb t]; [done|].
    cbn [equalFoldRight folded masked].
    destruct (byte tb <? 128) eqn:Htb.
    + rewrite andb_true_iff, IH, Hsb. cbn [andb].
      split.
      * intros [H1 ->]. f_equal.
        destruct (byte sb =? byte tb) eqn:E.
        -- apply Z.eqb_eq in E. unfold caseMask. by rewrite E.
        -- apply Z.eqb_eq in H1. done.
      * intros [= H1 H2]. split; [|done].
        destruct (byte sb =? byte tb); [done|]. by apply Z.eqb_eq.
    + pose proof (high_mask tb Htb) as Hhi.
      assert (Hb : 128 <= byte tb) by (apply Z.ltb_ge in Htb; done).
      destruct t as [|t1 t].
      { destruct (caseMask sb =? 83), (caseMask sb =? 75);
          (split; [done|]); intros [= H]; lia. }
      destruct ((byte tb =? 197) && (byte t1 =? 191)) eqn:E1.
      { destruct (caseMask sb =? 83) eqn:E83.
        - apply Z.eqb_eq in E83. rewrite E83.
          cbn [andb] in *. rewrite IH.
          split; [intros ->; done | by intros [= ->]].
        - split.
          + destruct (caseMask sb =? 75) eqn:E75; [|done].
            destruct t as [|t2 t]; [done|].
            apply andb_true_iff in E1 as [E1 _]. apply Z.eqb_eq in E1.
            rewrite E1. done.
          + intros [= H _]. apply Z.eqb_neq in E83. done. }
      destruct t as [|t2 t].
      { destruct (caseMask sb =? 83), (caseMask sb =? 75); cbn [andb];
          (split; [done|]); intros [= H]; lia. }
      destruct ((byte tb =? 226) && (byte t1 =? 132) && (byte t2 =? 170)) eqn:E2.
      { destruct (caseMask sb =? 83) eqn:E83.
        - cbn [andb]. split; [done|]. intros [= H _].
          apply Z.eqb_eq in E83. lia.
        - destruct (caseMask sb =? 75) eqn:E75.
          + apply Z.eqb_eq in E75. cbn [andb]. rewrite E75, IH.
            split; [intros ->; done | by intros [= ->]].
          + split; [done|]. intros [= H _]. apply Z.eqb_neq in E75. done. }
      destruct (caseMask sb =? 83), (caseMask sb =? 75); cbn [andb];
        (split; [done|]); intros [= H]; lia.
Qed.

Lemma simpleLetterEqualFold_folded s :
  hasNonLetter s = false -> hasSpecial s = false ->
  forall t, simpleLetterEqualFold s t = true <-> folded t = masked s.
Proof.
  induction s as [|sb s IH]; intros Hs Hk t.
  - destruct t as [|tb t]; simpl; [done|].
    split; [done|]. destruct (byte tb <? 128); [done|].
    destruct t as [|t1 t]; [done|].
    destruct (_ && _); [done|].
    destruct t as [|t2 t]; [done|]. by destruct (_ && _).
  - simpl in Hs, Hk. apply orb_false_elim in Hs as [Hsb Hs].
    apply negb_false_iff in Hsb.
    apply orb_false_elim in Hk as [Hk1 Hk]. apply orb_false_elim in Hk1 as [H75 H83].
    apply Z.eqb_neq in H75, H83.
    specialize (IH Hs Hk).
    pose proof (letter_mask sb Hsb) as Hm.
    destruct t as [|tb t]; [done|].
    cbn [simpleLetterEqualFold folded masked].
    rewrite andb_true_iff, IH, Z.eqb_eq.
    destruct (byte tb <? 128) eqn:Htb.
    + split; [by intros [-> ->] | by intros [= -> ->]].
    + pose proof (high_mask tb Htb) as Hhi.
      assert (Hb : 128 <= byte tb) by (apply Z.ltb_ge in Htb; done).
      split; [intros [H _]; lia|].
      destruct t as [|t1 t]; [intros [= H]; lia|].
      destruct (_ && _); [intros [= H]; lia|].
      destruct t as [|t2 t]; [intros [= H]; lia|].
      destruct (_ && _); intros [= H]; lia.
Qed.

(** What [equalFold] decides for a name made of ASCII letters. *)
Lemma equalFold_folded name key :
  hasNonLetter name = false ->
  equalFold name key = true <-> sameFold key name.
Proof.
  intros Hn. unfold sameFold. rewrite (folded_letters name Hn).
  unfold equalFold, foldFunc. rewrite Hn.
  destruct (hasSpecial name) eqn:Hk.
  - by apply equalFoldRight_folded.
  - by apply simpleLetterEqualFold_folded.
Qed.

Lemma nameIndex_Some {F} (fields : list (string * F)) key g :
  nameIndex fields key = Some g -> (key, g) ∈ fields.
Proof.
  induction fields as [|[n h] fs IH]; simpl; [done|].
  destruct (String.eqb n key) eqn:E.
  - apply String.eqb_eq in E as ->. intros [= ->]. left.
  - intros H. right. auto.
Qed.

Lemma foldSearch_Some {F} (fields : list (string * F)) key g :
  Forall (fun nf => hasNonLetter nf.1 = false) fields ->
  foldSearch fields key = Some g ->
  exists name, (name, g) ∈ fields /\ sameFold key name.
Proof.
  induction fields as [|[n h] fs IH]; simpl; [done|].
  intros [Hn Hl]%Forall_cons. simpl in Hn.
  destruct (equalFold n key) eqn:E.
  - apply (equalFold_folded n key Hn) in E. intros [= ->].
    exists n. split; [left|done].
  - intros H. destruct (IH Hl H) as (m & Hin & Hs).
    exists m. split; [by right|done].
Qed.

Lemma foldSearch_None {F} (fields : list (string * F)) key name g :
  Forall (fun nf => hasNonLetter nf.1 = false) fields ->
  foldSearch fields key = None ->
  (name, g) ∈ fields -> ~ sameFold key name.
Proof.
  induction fields as [|[n h] fs IH]; simpl.
  - intros _ _ Hin. by apply elem_of_nil in Hin.
  - intros [Hn Hl]%Forall_cons. simpl in Hn.
    destruct (equalFold n key) eqn:E; [done|].
    intros Hnone [[= -> ->]|Hin]%elem_of_cons.
    + intros Hs. apply (equalFold_folded n key Hn) in Hs. congruence.
    + auto.
Qed.

(** [findField] on a struct whose field names are ASCII letters and
    differ beyond case: the field whose name the key folds to. *)
Lemma findField_sameFold {F} (fields : list (string * F)) key f :
  Forall (fun nf => hasNonLetter nf.1 = false) fields ->
  NoDup ((fun nf => folded nf.1) <$> fields) ->
  findField fields key = Some f <->
  exists name, (name, f) ∈ fields /\ sameFold key name.
Proof.
  intros Hl Hd.
  assert (Huniq : forall n1 g1 n2 g2, (n1, g1) ∈ fields -> (n2, g2) ∈ fields ->
            sameFold n1 n2 -> g1 = g2).
  { intros n1 g1 n2 g2 H1 H2 Hs.
    apply list_elem_of_lookup in H1 as [i Hi], H2 as [j Hj].
    assert (i = j) as ->.
    { eapply NoDup_lookup; [exact Hd| |].
      - rewrite list_lookup_fmap, Hi. done.
      - rewrite list_lookup_fmap, Hj. simpl. by rewrite Hs. }
    congruence. }
  unfold findField. destruct (nameIndex fields key) as [g|] eqn:E.
  - apply nameIndex_Some in E. split.
    + intros [= ->]. by exists key.
    + intros (n & Hin & Hs). f_equal. eauto.
  - destruct (foldSearch fields key) as [g|] eqn:E'.
    + destruct (foldSearch_Some _ _ _ Hl E') as (m & Hin & Hs). split.
      * intros [= ->]. eauto.
      * intros (n & Hin' & Hs'). f_equal. eapply Huniq; [done..|].
        unfold sameFold in *. congruence.
    + split; [done|]. intros (n & Hin & Hs).
      by destruct (foldSearch_None _ _ _ _ Hl E' Hin).
Qed.
End Folding.

(** ** Decoding a reading object *)



Lemma EimGet_Set_other f g v r : f <> g -> EimGet f (EimSet g v r) = EimGet f r.
Proof. intros Hne. destruct r, f, g; try done; by destruct v. Qed.


Section ObjectEim.
Let object := json.object EimFields EimKind EimSet.

Lemma object_Eim_app l1 l2 r saved :
  object (l1 ++ l2) r saved =
  let '(r', saved') := object l1 r saved in object l2 r' saved'.
Proof.
  revert r saved. induction l1 as [|[k j] l1 IH]; intros r saved; [done|].
  simpl. destruct (json.findField EimFields k); [|apply IH].
  destruct (json.store _ j). apply IH.
Qed.

End ObjectEim.

(** ** Well-formed device documents *)




(** The three sub-documents of a device document, whatever the order of
    its keys. *)
Lemma object_api_device members p c s a :
  members ≡ₚ [("production", p); ("consumption", c); ("storage", s)] ->
  object_api members a =
  {| Production := Some p; Consumption := Some c; Storage := Some s |}.
Proof.
  intros H. symmetry in H. apply permutations_Permutation in H. simpl in H.
  repeat (apply elem_of_cons in H as [->|H]; [by vm_compute|]).
  by apply elem_of_nil in H.
Qed.

(** ** The shape of the production array *)

Lemma store_DecodeError k j : savedDecodeError (json.store k j).2.
Proof. destruct j, k; simpl; try done; by case_match. Qed.

Lemma saveError_DecodeError a b :
  savedDecodeError a -> savedDecodeError b -> savedDecodeError (json.saveError a b).
Proof. by destruct a. Qed.


Lemma value_DecodeError {S F} (fields : list (string * F)) kind
    (set : F -> json.Value -> S -> S) typ j r saved :
  savedDecodeError saved ->
  savedDecodeError (json.value fields kind set typ j r saved).2.
Proof.
  intros Hs.
  destruct j as [| | | | |members]; simpl;
    try (by apply saveError_DecodeError); try done.
  revert r saved Hs. induction members as [|[k v] ms IH]; intros r saved Hs; [done|].
  simpl. destruct (json.findField fields k) as [f|]; [|by apply IH].
  pose proof (store_DecodeError (kind f) v).
  destruct (json.store (kind f) v) as [x e]. apply IH.
  by apply saveError_DecodeError.
Qed.


(** ** What a run leaves in the world *)

Lemma after_refl w : after w [] w.
Proof. unfold after. by rewrite app_nil_r. Qed.

Lemma after_emit e w : after w [e] (emit e w).
Proof. done. Qed.

Lemma after_trans w1 w2 w3 l1 l2 :
  after w1 l1 w2 -> after w2 l2 w3 -> after w1 (l1 ++ l2) w3.
Proof.
  intros (E1 & S1 & C1) (E2 & S2 & C2). unfold after.
  rewrite E2, E1, app_assoc. split; [done|]. split; congruence.
Qed.

Lemma cycles_app w w' new :
  events w' = events w ++ new ->
  cycles w' = (cycles w + length (List.filter isCycle new))%nat.
Proof. intros E. unfold cycles. by rewrite E, List.filter_app, length_app. Qed.

Lemma foldl_emit_after (l : list Eim) w :
  after w ((fun eim => Printf (reading_line (ReadingTime eim)
                                 (MeasurementType eim) (WNow eim))) <$> l)
    (foldl (fun w eim =>
              emit (Printf (reading_line (ReadingTime eim)
                              (MeasurementType eim) (WNow eim))) w) w l).
Proof.
  revert w. induction l as [|x l IH]; intros w; simpl.
  - apply after_refl.
  - apply (after_trans _ _ _ [_] _ (after_emit _ w) (IH _)).
Qed.

Lemma pollEnvoy_after host exchange w :
  exists new, after w new (pollEnvoy host exchange w).2
              /\ Forall (fun e => isEnvoyEvent e = true) new.
Proof.
  unfold pollEnvoy.
  set (w0 := emit call_pollEnvoy w).
  set (url := "http://" +:+ host +:+ "/production.json?details=1").
  pose proof (after_emit call_pollEnvoy w) as H0. fold w0 in H0.
  pose proof (after_emit (Get url) w0) as H1.
  pose proof (after_trans _ _ _ _ _ H0 H1) as H01.
  destruct (exchange url) as [msg|msg|msg|[msg|doc]]; simpl;
    try (eexists; split; [first [exact H0 | exact H01]|]; by repeat constructor).
  destruct (Unmarshal_api doc _) as [api [e|]]; simpl;
    [eexists; split; [exact H01|]; by repeat constructor|].
  destruct (Unmarshal_production _ _ _) as [[i r] [e|]]; simpl;
    [eexists; split; [exact H01|]; by repeat constructor|].
  set (w2 := emit (Printf (production_line _ _)) (emit (Get url) w0)).
  pose proof (after_trans _ _ _ _ _ H01 (after_emit (Printf (production_line (ReadingTime r) (WNow r))) _)) as H2.
  fold w2 in H2.
  destruct (Unmarshal_consumption _) as [rs [e|]]; simpl;
    [eexists; split; [exact H2|]; by repeat constructor|].
  eexists. split.
  - exact (after_trans _ _ _ _ _ H2 (foldl_emit_after rs w2)).
  - apply Forall_app. split; [by repeat constructor|].
    apply Forall_fmap. by apply Forall_true.
Qed.

(** ** The writer of the 1.x program *)

Section WriterV1.
Import InfluxV1.

(** The precision of the program is a unit: the batch is always made. *)
Lemma NewBatchPoints_s database :
  NewBatchPoints database "s"
  = inr {| bp_database := database; bp_precision := "s"; bp_points := [] |}.
Proof. reflexivity. Qed.

Lemma v1_range_readings_after env m rs bp w :
  exists new, after w new (range_readings env m rs bp w).2
              /\ Forall (fun e => isCycle e = false /\ handed e = []) new.
Proof.
  revert bp w. induction rs as [|r rs IH]; intros bp w; simpl.
  - exists []. split; [apply after_refl|done].
  - destruct (NewPoint_err env _).
    + eexists. split; [apply after_emit|]. by repeat constructor.
    + destruct (IH (AddPoint (pointOf m r) bp) (emit (NewPoint (pointOf m r)) w))
        as (new & Ha & Hf).
      eexists. split; [exact (after_trans _ _ _ _ _ (after_emit _ w) Ha)|].
      by constructor.
Qed.

Lemma v1_range_readings_points env m rs bp w bp' w' :
  range_readings env m rs bp w = (inr bp', w') ->
  bp' = {| bp_database := bp_database bp; bp_precision := bp_precision bp;
           bp_points := bp_points bp ++ (pointOf m <$> rs) |}.
Proof.
  revert bp w. induction rs as [|r rs IH]; intros bp w; simpl.
  - intros [= <- _]. rewrite app_nil_r. by destruct bp.
  - destruct (NewPoint_err env _); [done|].
    intros H%IH. rewrite H. simpl. by rewrite <- app_assoc.
Qed.

Local Ltac all_quiet :=
  repeat first
    [ assumption
    | apply Forall_app; split
    | apply Forall_nil; done
    | apply Forall_cons; split; [done|] ].

(** What one call of [writeToInflux] does to the client and the world:
    it keeps a client it holds, constructs at most one when it holds
    none, and writes only on success. *)
Lemma v1_writeToInflux_effect env context w prodReadings consumptionReadings :
  let '(context', w', err) := writeToInflux env context w prodReadings consumptionReadings in
  let pts := pointOf (measurementNamePtr context) <$> (consumptionReadings ++ [prodReadings]) in
  set_influxClient (influxClient context') context = context'
  /\ (exists new, events w' = events w ++ new
                  /\ Forall (fun e => isCycle e = false) new
                  /\ (err = None -> concat (handed <$> new) = pts
                      /\ exists c, last new = Some (Write c
                           {| bp_database := dbNamePtr context;
                              bp_precision := "s"; bp_points := pts |})))
  /\ (err = None -> store w' = store w ++ pts)
  /\ (err <> None -> store w' = store w)
  /\ match influxClient context with
     | Some c => influxClient context' = Some c /\ clients w' = clients w
     | None =>
         (influxClient context' = None /\ clients w' = clients w /\ err <> None)
         \/ (influxClient context' = Some (clients w)
             /\ clients w' = S (clients w))
     end.
Proof.
  unfold writeToInflux. rewrite NewBatchPoints_s.
  set (w0 := emit call_writeToInflux w).
  set (bp0 := {| bp_database := dbNamePtr context; bp_precision := "s";
                 bp_points := [] |}).
  set (rs := consumptionReadings ++ [prodReadings]).
  set (m := measurementNamePtr context).
  destruct (v1_range_readings_after env m rs bp0 w0) as (new & (E & S & C) & Hf).
  pose proof (v1_range_readings_points env m rs bp0 w0) as Hp.
  destruct (range_readings env m rs bp0 w0) as [[err|bp] w1]; simpl in *.
  - split; [by destruct context|]. split.
    { exists (call_writeToInflux :: new). rewrite E. simpl.
      rewrite <- app_assoc. split; [done|]. split; [|done].
      constructor; [done|]. eapply Forall_impl; [exact Hf|]. by intros ? []. }
    split; [done|]. split; [by rewrite S|].
    rewrite C. destruct (influxClient context); [done|]. left. done.
  - specialize (Hp bp w1 eq_refl). subst bp. simpl. fold rs m.
    assert (Hh : concat (handed <$> new) = []).
    { clear -Hf. induction Hf as [|e l [_ He] _ IH]; [done|].
      change (concat (handed <$> e :: l)) with (handed e ++ concat (handed <$> l)).
      by rewrite He, IH. }
    assert (Hc : Forall (fun e => isCycle e = false) new).
    { eapply Forall_impl; [exact Hf|]. by intros ? []. }
    assert (Hev : forall tail,
              events w1 ++ tail = events w ++ (call_writeToInflux :: new) ++ tail).
    { intros tail. rewrite E. simpl. by rewrite <- !app_assoc. }
    destruct (influxClient context) as [c|] eqn:Hic.
    + destruct (Write_err env _) as [err|]; simpl.
      * split; [by destruct context; simpl in *; subst|]. split.
        { eexists. split; [apply Hev|]. split; [|done]. all_quiet. }
        rewrite Hic. done.
      * split; [by destruct context; simpl in *; subst|]. split.
        { eexists. split; [apply Hev|]. split; [all_quiet|].
          intros _. split.
          - rewrite fmap_app, concat_app.
            change (concat (handed <$> call_writeToInflux :: new))
              with (concat (handed <$> new)).
            rewrite Hh. simpl. by rewrite app_nil_r.
          - exists c. by rewrite last_snoc. }
        rewrite S, Hic. done.
    + destruct (NewHTTPClient_err env) as [err|]; simpl.
      * split; [by destruct context; simpl in *; subst|]. split.
        { exists (call_writeToInflux :: new). rewrite E. simpl.
          rewrite <- app_assoc. split; [done|]. split; [|done].
          by constructor. }
        split; [done|]. split; [done|]. left. done.
      * destruct (Write_err env _) as [err|]; simpl.
        -- split; [done|]. split.
           { exists ((call_writeToInflux :: new) ++
                     ([NewClient (clients w1) [influxAddrPtr context;
                         dbUserPtr context; dbPwPtr context]] ++ [Write (clients w1)
                        {| bp_database := dbNamePtr context; bp_precision := "s";
                           bp_points := pointOf m <$> rs |}])).
             split; [rewrite <- app_assoc; apply Hev|].
             split; [|done]. all_quiet. }
           split; [done|]. split; [done|]. right. by rewrite C.
        -- split; [done|]. split.
           { exists ((call_writeToInflux :: new) ++
                     ([NewClient (clients w1) [influxAddrPtr context;
                         dbUserPtr context; dbPwPtr context]] ++ [Write (clients w1)
                        {| bp_database := dbNamePtr context; bp_precision := "s";
                           bp_points := pointOf m <$> rs |}])).
             split; [rewrite <- app_assoc; apply Hev|].
             split; [all_quiet|].
             intros _. split.
             - rewrite fmap_app, concat_app.
               change (concat (handed <$> call_writeToInflux :: new))
                 with (concat (handed <$> new)).
               rewrite Hh. simpl. by rewrite app_nil_r.
             - exists (clients w1). by rewrite !app_assoc, last_snoc. }
           split; [by rewrite S|]. split; [done|]. right. by rewrite C.
Qed.
End WriterV1.

(** ** The writer of the 2.x program *)

Section WriterV2.
Import InfluxV2.

Lemma v2_range_readings_effect env m api rs i w :
  let '(r, w') := range_readings env m api rs i w in
  clients w' = clients w
  /\ (is_Some api -> r <> panics)
  /\ exists new, events w' = events w ++ new
       /\ Forall (fun e => isCycle e = false) new
       /\ (r = returns None ->
           concat (handed <$> new) = pointOf m <$> rs
           /\ store w' = store w ++ (pointOf m <$> rs)).
Proof.
  revert i w. induction rs as [|r rs IH]; intros i w; simpl.
  - split; [done|]. split; [done|]. exists []. rewrite !app_nil_r. done.
  - destruct api as [a|].
    + destruct (WritePoint_err env i _) as [err|].
      * split; [done|]. split; [done|]. eexists [_; _]. simpl.
        rewrite <- app_assoc. split; [done|]. split; [|done].
        by repeat constructor.
      * specialize (IH (S i) (accept [pointOf m r]
          (emit (WritePoint (api_client a) (api_org a) (api_bucket a) (pointOf m r))
             (emit (NewPoint (pointOf m r)) w)))).
        destruct (range_readings _ _ _ rs _ _) as [res w'].
        destruct IH as (C & Hp & new & E & Hf & Hok).
        split; [done|]. split; [done|].
        exists ([NewPoint (pointOf m r);
                 WritePoint (api_client a) (api_org a) (api_bucket a) (pointOf m r)]
                ++ new).
        split; [rewrite E; simpl; by rewrite <- !app_assoc|].
        split; [by repeat constructor|].
        intros Hres. destruct (Hok Hres) as [Hh Hs]. split.
        -- rewrite fmap_app, concat_app, Hh. done.
        -- rewrite Hs. simpl. by rewrite <- app_assoc.
    + split; [done|]. split; [by intros []|]. eexists [_].
      split; [done|]. split; [by repeat constructor|]. done.
Qed.

(** What one call of [writeToInflux] does to the client and the world:
    it keeps a client it holds, constructs one when it holds none, and
    on success has written every point. *)
Lemma v2_writeToInflux_effect env monitor w prodReadings consumptionReadings :
  let '(monitor', w', r) := writeToInflux env monitor w prodReadings consumptionReadings in
  let pts := pointOf (measurementNamePtr monitor) <$> (consumptionReadings ++ [prodReadings]) in
  set_influx (influxClient monitor') (writeAPI monitor') monitor = monitor'
  /\ (wired monitor -> r <> panics /\ wired monitor')
  /\ (exists new, events w' = events w ++ new
        /\ Forall (fun e => isCycle e = false) new
        /\ (r = returns None -> concat (handed <$> new) = pts))
  /\ (r = returns None -> store w' = store w ++ pts)
  /\ match influxClient monitor with
     | Some c => influxClient monitor' = Some c /\ clients w' = clients w
     | None => influxClient monitor' = Some (clients w)
               /\ clients w' = S (clients w)
     end.
Proof.
  unfold writeToInflux.
  set (w0 := emit call_writeToInflux w).
  set (rs := consumptionReadings ++ [prodReadings]).
  destruct (influxClient monitor) as [c|] eqn:Hic.
  - pose proof (v2_range_readings_effect env (measurementNamePtr monitor)
                  (writeAPI monitor) rs 0 w0) as H.
    destruct (range_readings _ _ _ rs _ w0) as [r w'].
    destruct H as (C & Hp & new & E & Hf & Hok).
    split; [by destruct monitor|]. split.
    { intros [Hn|Hw]; [congruence|]. split; [auto|by right]. }
    split.
    { exists (call_writeToInflux :: new). rewrite E. simpl.
      rewrite <- app_assoc. split; [done|]. split; [by constructor|].
      intros Hr. by destruct (Hok Hr). }
    split; [intros Hr; by destruct (Hok Hr)|]. done.
  - cbn [construct set_influx measurementNamePtr writeAPI].
    set (a := Build_WriteAPI _ _ _).
    set (w1 := Build_World _ _ _).
    pose proof (v2_range_readings_effect env (measurementNamePtr monitor)
                  (Some a) rs 0 w1) as H.
    destruct (range_readings _ _ _ rs _ w1) as [r w'].
    destruct H as (C & Hp & new & E & Hf & Hok).
    split; [done|]. split.
    { intros _. split; [by apply Hp|]. by right. }
    split.
    { exists ([call_writeToInflux;
               NewClient (clients w) [influxAddrPtr monitor;
                 dbUserPtr monitor +:+ ":" +:+ dbPwPtr monitor]] ++ new).
      rewrite E. simpl. rewrite <- !app_assoc. split; [done|].
      split; [by repeat constructor|].
      intros Hr. by destruct (Hok Hr). }
    split; [intros Hr; by destruct (Hok Hr)|]. done.
Qed.
End WriterV2.

(** ** The scheduler of the 1.x program *)

Section SchedulerV1.
Import InfluxV1.

Lemma isEnvoyEvent_quiet e :
  isEnvoyEvent e = true -> isCycle e = false /\ isWriterEvent e = false.
Proof. by destruct e as [| | | |[]| | | | |]. Qed.

(** One call of [poll] is one cycle, and changes of the context are
    changes of its client. *)
Lemma v1_poll_effect env context w :
  let '(context', w', err) := poll env context w in
  cycles w' = S (cycles w)
  /\ set_influxClient (influxClient context') context = context'
  /\ (forall c, influxClient context = Some c -> influxClient context' = Some c).
Proof.
  unfold poll.
  destruct (pollEnvoy_after (envoyHostPtr context) (exchange env)
              (emit call_poll w)) as (new & (E & _ & _) & Hf).
  destruct (pollEnvoy _ _ _) as [[[prodReadings consumptionReadings] err] w1]. simpl in E.
  assert (cycles w1 = S (cycles w)) as Hc.
  { rewrite <- app_assoc in E. rewrite (cycles_app _ _ _ E). simpl.
    assert (List.filter isCycle new = []) as ->; [|simpl; lia].
    clear -Hf. induction Hf as [|e l He _ IH]; [done|]. simpl.
    by destruct (isEnvoyEvent_quiet e He) as [-> _]. }
  destruct err as [e|].
  - split; [done|]. split; [by destruct context|]. done.
  - pose proof (v1_writeToInflux_effect env context w1 prodReadings consumptionReadings) as H.
    destruct (writeToInflux env context w1 prodReadings consumptionReadings) as [[context' w'] err].
    destruct H as (Hset & (new' & E' & Hq & _) & _ & _ & Hcl).
    split.
    { rewrite (cycles_app _ _ _ E'), Hc.
      assert (List.filter isCycle new' = []) as ->; [|simpl; lia].
      clear -Hq. induction Hq as [|e l He _ IH]; [done|]. simpl. by rewrite He. }
    split; [done|]. intros c Hic. rewrite Hic in Hcl. by destruct Hcl.
Qed.

Lemma cycles_printed err w : cycles (printed err w) = cycles w.
Proof.
  destruct err; [|done]. unfold cycles. simpl.
  rewrite List.filter_app, length_app. simpl. lia.
Qed.

(** The loop at one more tick: the state at the tick before, then one
    call of [poll], its error printed. *)
Lemma v1_loop_next env k n context w :
  loop env k (S n) context w =
  let '(context', w') := loop env k n context w in
  let '(context'', w'', err) := poll (env (k + n)%nat) context' w' in
  (context'', printed err w'').
Proof.
  revert k context w. induction n as [|n IH]; intros k context w.
  - simpl. rewrite Nat.add_0_r.
    by destruct (poll (env k) context w) as [[c1 w1] [e|]].
  - change (loop env k (S (S n)) context w) with
      (let '(context, w, err) := poll (env k) context w in
       loop env (S k) (S n) context (printed err w)).
    change (loop env k (S n) context w) with
      (let '(context, w, err) := poll (env k) context w in
       loop env (S k) n context (printed err w)).
    destruct (poll (env k) context w) as [[c1 w1] err].
    rewrite IH. by replace (S k + n)%nat with (k + S n)%nat by lia.
Qed.

Lemma v1_loop_cycles env k n context w :
  cycles (loop env k n context w).2 = (cycles w + n)%nat.
Proof.
  revert k context w. induction n as [|n IH]; intros k context w.
  - simpl. lia.
  - rewrite v1_loop_next. specialize (IH k context w).
    destruct (loop env k n context w) as [c1 w1]. simpl in IH.
    pose proof (v1_poll_effect (env (k + n)%nat) c1 w1) as H.
    destruct (poll _ c1 w1) as [[c2 w2] err]. destruct H as [H _].
    simpl. rewrite cycles_printed. lia.
Qed.
End SchedulerV1.

(** ** The scheduler of the 2.x program *)

Section SchedulerV2.
Import InfluxV2.

Lemma v2_poll_effect env monitor w :
  let '(monitor', w', r) := poll env monitor w in
  cycles w' = S (cycles w)
  /\ set_influx (influxClient monitor') (writeAPI monitor') monitor = monitor'
  /\ (wired monitor -> r <> panics /\ wired monitor').
Proof.
  unfold poll.
  destruct (pollEnvoy_after (envoyHostPtr monitor) (exchange env)
              (emit call_poll w)) as (new & (E & _ & _) & Hf).
  destruct (pollEnvoy _ _ _) as [[[prodReadings consumptionReadings] err] w1]. simpl in E.
  assert (cycles w1 = S (cycles w)) as Hc.
  { rewrite <- app_assoc in E. rewrite (cycles_app _ _ _ E). simpl.
    assert (List.filter isCycle new = []) as ->; [|simpl; lia].
    clear -Hf. induction Hf as [|e l He _ IH]; [done|]. simpl.
    by destruct (isEnvoyEvent_quiet e He) as [-> _]. }
  destruct err as [e|].
  - split; [done|]. split; [by destruct monitor|]. done.
  - pose proof (v2_writeToInflux_effect env monitor w1 prodReadings consumptionReadings) as H.
    destruct (writeToInflux env monitor w1 prodReadings consumptionReadings) as [[monitor' w'] r].
    destruct H as (Hset & Hw & (new' & E' & Hq & _) & _ & Hcl).
    split; [|done].
    rewrite (cycles_app _ _ _ E'), Hc.
    assert (List.filter isCycle new' = []) as ->; [|simpl; lia].
    clear -Hq. induction Hq as [|e l He _ IH]; [done|]. simpl. by rewrite He.
Qed.

(** The loop at one more tick: if it was still running at the tick
    before, one call of [poll], its error printed. *)
Lemma v2_loop_next env k n monitor w :
  loop env k (S n) monitor w =
  match loop env k n monitor w with
  | (Running, monitor', w') =>
      match poll (env (k + n)%nat) monitor' w' with
      | (monitor'', w'', panics) => (Panicked None, monitor'', w'')
      | (monitor'', w'', returns err) => (Running, monitor'', printed err w'')
      end
  | stopped => stopped
  end.
Proof.
  revert k monitor w. induction n as [|n IH]; intros k monitor w.
  - simpl. rewrite Nat.add_0_r.
    by destruct (poll (env k) monitor w) as [[m1 w1] [[e|]|]].
  - change (loop env k (S (S n)) monitor w) with
      (match poll (env k) monitor w with
       | (monitor, w, panics) => (Panicked None, monitor, w)
       | (monitor, w, returns err) => loop env (S k) (S n) monitor (printed err w)
       end).
    change (loop env k (S n) monitor w) with
      (match poll (env k) monitor w with
       | (monitor, w, panics) => (Panicked None, monitor, w)
       | (monitor, w, returns err) => loop env (S k) n monitor (printed err w)
       end).
    destruct (poll (env k) monitor w) as [[m1 w1] [err|]]; [|done].
    rewrite IH. by replace (S k + n)%nat with (k + S n)%nat by lia.
Qed.

(** From a wired monitor no cycle panics: the loop keeps running, one
    cycle a tick. *)
Lemma v2_loop_wired env k n monitor w :
  wired monitor ->
  let '(s, monitor', w') := loop env k n monitor w in
  s = Running /\ wired monitor' /\ cycles w' = (cycles w + n)%nat.
Proof.
  intros Hw. induction n as [|n IH].
  - simpl. split; [done|]. split; [done|]. lia.
  - rewrite v2_loop_next.
    destruct (loop env k n monitor w) as [[s m1] w1].
    destruct IH as (-> & Hw1 & Hc1).
    pose proof (v2_poll_effect (env (k + n)%nat) m1 w1) as H.
    destruct (poll _ m1 w1) as [[m2 w2] r].
    destruct H as (Hc & _ & Hp). destruct (Hp Hw1) as [Hr Hw2].
    destruct r as [err|]; [|done].
    split; [done|]. split; [done|]. rewrite cycles_printed. lia.
Qed.

Lemma newMonitor_wired flags : wired (newMonitor flags).
Proof. by left. Qed.
End SchedulerV2.

(** * The properties of the specification *)

(** ** C1 *)



(** ** C2 *)

(** C2.  A successful write hands the database one point per reading,
    the consumption readings first in their order and the production
    reading last; each point has the one tag [type], the kind of its
    reading, the one field [watts], its instantaneous power, the time of
    its whole epoch second, and the configured measurement name.  The 1.x
    program hands them over as one batch of precision "s", the 2.x
    program point by point. *)
Theorem writeToInflux_points :
  (forall env context w prodReadings consumptionReadings context' w',
     InfluxV1.writeToInflux env context w prodReadings consumptionReadings = (context', w', None) ->
     let point (r : Eim) :=
       {| pt_name := InfluxV1.measurementNamePtr context;
          pt_tags := {[ "type" := MeasurementType r ]};
          pt_fields := {[ "watts" := WNow r ]};
          pt_time := {| sec := ReadingTime r; nsec := 0 |} |} in
     let pts := point <$> (consumptionReadings ++ [prodReadings]) in
     length pts = S (length consumptionReadings)
     /\ store w' = store w ++ pts
     /\ exists new c,
          events w' = events w ++ new
          /\ concat (handed <$> new) = pts
          /\ last new = Some (Write c {| bp_database := InfluxV1.dbNamePtr context;
                                        bp_precision := "s"; bp_points := pts |}))
  /\ (forall env monitor w prodReadings consumptionReadings monitor' w',
        InfluxV2.writeToInflux env monitor w prodReadings consumptionReadings
        = (monitor', w', InfluxV2.returns None) ->
        let point (r : Eim) :=
          {| pt_name := InfluxV2.measurementNamePtr monitor;
             pt_tags := {[ "type" := MeasurementType r ]};
             pt_fields := {[ "watts" := WNow r ]};
             pt_time := {| sec := ReadingTime r; nsec := 0 |} |} in
        let pts := point <$> (consumptionReadings ++ [prodReadings]) in
        length pts = S (length consumptionReadings)
        /\ store w' = store w ++ pts
        /\ exists new, events w' = events w ++ new
                       /\ concat (handed <$> new) = pts).
Proof.
  split.
  - intros env context w prodReadings consumptionReadings context' w' H point pts.
    pose proof (v1_writeToInflux_effect env context w prodReadings consumptionReadings) as E.
    rewrite H in E. destruct E as (_ & (new & Ev & _ & Hok) & Hst & _).
    destruct (Hok eq_refl) as (Hh & c & Hl).
    split; [subst pts; rewrite length_fmap, length_app; simpl; lia|].
    split; [by apply Hst|]. by exists new, c.
  - intros env monitor w prodReadings consumptionReadings monitor' w' H point pts.
    pose proof (v2_writeToInflux_effect env monitor w prodReadings consumptionReadings) as E.
    rewrite H in E. destruct E as (_ & _ & (new & Ev & _ & Hok) & Hst & _).
    split; [subst pts; rewrite length_fmap, length_app; simpl; lia|].
    split; [by apply Hst|]. exists new. split; [done|]. by apply Hok.
Qed.

Lemma writeToInflux_points_witness :
  let w1 := (InfluxV1.writeToInflux (envV1 unreachable)
               (InfluxV1.newContext (flagsV1 0)) (boot []) sampleReading
               (readingOf <$> sampleConsumption)).1.2 in
  let w2 := (InfluxV2.writeToInflux (envV2 unreachable)
               (InfluxV2.newMonitor (flagsV2 0)) (boot []) sampleReading
               (readingOf <$> sampleConsumption)).1.2 in
  let point (r : Eim) :=
    {| pt_name := "readings";
       pt_tags := {[ "type" := MeasurementType r ]};
       pt_fields := {[ "watts" := WNow r ]};
       pt_time := {| sec := ReadingTime r; nsec := 0 |} |} in
  store w1 = point <$> ((readingOf <$> sampleConsumption) ++ [sampleReading])
  /\ store w2 = point <$> ((readingOf <$> sampleConsumption) ++ [sampleReading]).
Proof.
  split.
  - refine (proj1 (proj2 (proj1 writeToInflux_points (envV1 unreachable)
              (InfluxV1.newContext (flagsV1 0)) (boot []) sampleReading
              (readingOf <$> sampleConsumption) _ _ _))).
    vm_compute. reflexivity.
  - refine (proj1 (proj2 (proj2 writeToInflux_points (envV2 unreachable)
              (InfluxV2.newMonitor (flagsV2 0)) (boot []) sampleReading
              (readingOf <$> sampleConsumption) _ _ _))).
    vm_compute. reflexivity.
Defined.

(** ** C3 *)




(** ** C4 *)




(** ** C5 *)

(** With a loop interval of one second, a process that has received no
    tick yet has run no cycle, and one that has received one tick has run
    one cycle, not two. *)
Lemma repeating_startup_counterexample :
  let env1 := fun _ : nat => envV1 (answers (JObject sampleMembers)) in
  let env2 := fun _ : nat => envV2 (answers (JObject sampleMembers)) in
  InfluxV1.main (flagsV1 second) [] env1 0
  = (Running, InfluxV1.newContext (flagsV1 second), boot [])
  /\ InfluxV2.main (flagsV2 second) [] env2 0
     = (Running, InfluxV2.newMonitor (flagsV2 second), boot [])
  /\ cycles (InfluxV1.main (flagsV1 second) [] env1 1).2 = 1%nat
  /\ cycles (InfluxV2.main (flagsV2 second) [] env2 1).2 = 1%nat.
Proof. vm_compute. done. Qed.

Lemma v1_main_repeating flags db env n :
  0 < InfluxV1.flag_loop flags ->
  InfluxV1.main flags db env n =
  (Running, (InfluxV1.loop env 0 n (InfluxV1.newContext flags) (boot db)).1,
   (InfluxV1.loop env 0 n (InfluxV1.newContext flags) (boot db)).2).
Proof.
  intros H. unfold InfluxV1.main.
  assert ((0 <? InfluxV1.loopIntervalPtr (InfluxV1.newContext flags)) = true)
    as -> by (apply Z.ltb_lt; done).
  by destruct (InfluxV1.loop _ _ _ _ _).
Qed.

Lemma v2_main_repeating flags db env n :
  0 < InfluxV2.flag_loop flags ->
  InfluxV2.main flags db env n =
  InfluxV2.loop env 0 n (InfluxV2.newMonitor flags) (boot db)
  /\ (InfluxV2.main flags db env n).1.1 = Running.
Proof.
  intros H. unfold InfluxV2.main.
  assert ((0 <? InfluxV2.loopIntervalPtr (InfluxV2.newMonitor flags)) = true)
    as -> by (apply Z.ltb_lt; done).
  pose proof (v2_loop_wired env 0 n _ (boot db) (newMonitor_wired flags)) as Hw.
  destruct (InfluxV2.loop _ _ _ _ _) as [[s m] w].
  by destruct Hw as (-> & _).
Qed.

(** C5, as the code has it.  In repeating mode the scheduler runs no
    cycle at startup: it runs one cycle on every tick it receives from the
    ticker, so that a process that has received [n] ticks has run [n]
    cycles. *)
Theorem repeating_one_cycle_per_tick :
  (forall flags db env n,
     0 < InfluxV1.flag_loop flags ->
     cycles (InfluxV1.main flags db env n).2 = n)
  /\ (forall flags db env n,
        0 < InfluxV2.flag_loop flags ->
        cycles (InfluxV2.main flags db env n).2 = n).
Proof.
  split; intros flags db env n H.
  - rewrite (v1_main_repeating _ _ _ _ H). cbn [snd].
    by rewrite v1_loop_cycles.
  - destruct (v2_main_repeating flags db env n H) as [-> _].
    pose proof (v2_loop_wired env 0 n _ (boot db) (newMonitor_wired flags)) as Hw.
    destruct (InfluxV2.loop _ _ _ _ _) as [[s m] w].
    destruct Hw as (_ & _ & Hc). simpl. by rewrite Hc.
Qed.

Lemma repeating_one_cycle_per_tick_witness :
  cycles (InfluxV1.main (flagsV1 second) []
            (fun _ => envV1 (answers (JObject sampleMembers))) 3).2 = 3%nat
  /\ cycles (InfluxV2.main (flagsV2 second) []
               (fun _ => envV2 (answers (JObject sampleMembers))) 3).2 = 3%nat.
Proof.
  split.
  - apply (proj1 repeating_one_cycle_per_tick (flagsV1 second)). reflexivity.
  - apply (proj2 repeating_one_cycle_per_tick (flagsV2 second)). reflexivity.
Defined.

(** ** C6 *)

(** C6.  In repeating mode the process is running at every tick, whatever
    the cycles before it returned, and the tick invokes a fresh cycle on
    the state they left; a cycle that returns an error has the error
    printed, and the process is running after it. *)
Theorem repeating_cycle_error_is_swallowed :
  (forall flags db env n,
     0 < InfluxV1.flag_loop flags ->
     let '(s, context, w) := InfluxV1.main flags db env n in
     let '(context', w', err) := InfluxV1.poll (env n) context w in
     s = Running
     /\ InfluxV1.main flags db env (S n) =
        (Running, context',
         match err with
         | Some e => emit (Printf (error_line e)) w'
         | None => w'
         end))
  /\ (forall flags db env n,
        0 < InfluxV2.flag_loop flags ->
        let '(s, monitor, w) := InfluxV2.main flags db env n in
        s = Running
        /\ exists monitor' w' err,
             InfluxV2.poll (env n) monitor w = (monitor', w', InfluxV2.returns err)
             /\ InfluxV2.main flags db env (S n) =
                (Running, monitor',
                 match err with
                 | Some e => emit (Printf (error_line e)) w'
                 | None => w'
                 end)).
Proof.
  split; intros flags db env n H.
  - rewrite !(v1_main_repeating _ _ _ _ H), v1_loop_next.
    destruct (InfluxV1.loop env 0 n _ _) as [c1 w1]. simpl.
    by destruct (InfluxV1.poll (env n) c1 w1) as [[c2 w2] err].
  - destruct (v2_main_repeating flags db env n H) as [-> _].
    destruct (v2_main_repeating flags db env (S n) H) as [-> _].
    rewrite v2_loop_next.
    pose proof (v2_loop_wired env 0 n _ (boot db) (newMonitor_wired flags)) as Hw.
    destruct (InfluxV2.loop env 0 n _ _) as [[s m1] w1].
    destruct Hw as (-> & Hw1 & _). split; [done|]. simpl.
    pose proof (v2_poll_effect (env n) m1 w1) as Hp.
    destruct (InfluxV2.poll (env n) m1 w1) as [[m2 w2] r].
    destruct Hp as (_ & _ & Hp). destruct (Hp Hw1) as [Hr _].
    destruct r as [err|]; [|done]. by exists m2, w2, err.
Qed.

Lemma repeating_cycle_error_is_swallowed_witness :
  (let env := fun _ : nat => envV1 unreachable in
   let '(s, context, w) := InfluxV1.main (flagsV1 second) [] env 1 in
   let '(context', w', err) := InfluxV1.poll (env 1%nat) context w in
   s = Running
   /\ InfluxV1.main (flagsV1 second) [] env 2 =
      (Running, context',
       match err with
       | Some e => emit (Printf (error_line e)) w'
       | None => w'
       end))
  /\ (let env := fun _ : nat => envV2 unreachable in
      let '(s, monitor, w) := InfluxV2.main (flagsV2 second) [] env 1 in
      s = Running
      /\ exists monitor' w' err,
           InfluxV2.poll (env 1%nat) monitor w = (monitor', w', InfluxV2.returns err)
           /\ InfluxV2.main (flagsV2 second) [] env 2 =
              (Running, monitor',
               match err with
               | Some e => emit (Printf (error_line e)) w'
               | None => w'
               end)).
Proof.
  split.
  - apply (proj1 repeating_cycle_error_is_swallowed (flagsV1 second) []
             (fun _ => envV1 unreachable) 1%nat). reflexivity.
  - apply (proj2 repeating_cycle_error_is_swallowed (flagsV2 second) []
             (fun _ => envV2 unreachable) 1%nat). reflexivity.
Defined.

(** In a run whose device never answers, every tick prints the network
    error and leaves the process running. *)
Example repeating_unreachable_device :
  (InfluxV1.main (flagsV1 second) [] (fun _ => envV1 unreachable) 2).1.1 = Running
  /\ List.filter (fun e => negb (isEnvoyEvent e) && negb (isCycle e))
       (events (InfluxV1.main (flagsV1 second) []
                  (fun _ => envV1 unreachable) 2).2)
     = [ Printf (error_line (NetworkError "context deadline exceeded"));
         Printf (error_line (NetworkError "context deadline exceeded")) ].
Proof. vm_compute. done. Qed.

(** ** C7 *)

Lemma cycles_deferred_v1 context w :
  cycles (InfluxV1.deferred context w) = cycles w.
Proof.
  unfold InfluxV1.deferred. destruct (InfluxV1.influxClient context); [|done].
  unfold cycles. simpl. rewrite List.filter_app, length_app. simpl. lia.
Qed.

Lemma cycles_deferred_v2 monitor w :
  cycles (InfluxV2.deferred monitor w) = cycles w.
Proof.
  unfold InfluxV2.deferred. destruct (InfluxV2.influxClient monitor); [|done].
  unfold cycles. simpl. rewrite List.filter_app, length_app. simpl. lia.
Qed.

(** C7.  In one-shot mode the process runs one cycle, whatever the
    ticks; it returns from [main], with exit status 0, when the cycle
    returns no error, and panics with the error, exit status 2, when it
    returns one, of any kind. *)
Theorem one_shot_single_cycle :
  (forall flags db env ticks,
     InfluxV1.flag_loop flags = 0 ->
     let '(s, context, w) := InfluxV1.main flags db env ticks in
     let '(_, _, err) :=
       InfluxV1.poll (env 0%nat) (InfluxV1.newContext flags) (boot db) in
     cycles w = 1%nat
     /\ s = match err with Some e => Panicked (Some e) | None => Returned end
     /\ exit_status s = Some (match err with Some _ => 2 | None => 0 end))
  /\ (forall flags db env ticks,
        InfluxV2.flag_loop flags = 0 ->
        let '(s, monitor, w) := InfluxV2.main flags db env ticks in
        let '(_, _, r) :=
          InfluxV2.poll (env 0%nat) (InfluxV2.newMonitor flags) (boot db) in
        cycles w = 1%nat
        /\ exists err,
             r = InfluxV2.returns err
             /\ s = match err with Some e => Panicked (Some e) | None => Returned end
             /\ exit_status s = Some (match err with Some _ => 2 | None => 0 end)).
Proof.
  split; intros flags db env ticks H.
  - unfold InfluxV1.main.
    assert ((0 <? InfluxV1.loopIntervalPtr (InfluxV1.newContext flags)) = false)
      as -> by (apply Z.ltb_ge; simpl; lia).
    pose proof (v1_poll_effect (env 0%nat) (InfluxV1.newContext flags) (boot db)) as E.
    destruct (InfluxV1.poll _ _ _) as [[c1 w1] [e|]]; destruct E as (Hc & _);
      by rewrite cycles_deferred_v1.
  - unfold InfluxV2.main.
    assert ((0 <? InfluxV2.loopIntervalPtr (InfluxV2.newMonitor flags)) = false)
      as -> by (apply Z.ltb_ge; simpl; lia).
    pose proof (v2_poll_effect (env 0%nat) (InfluxV2.newMonitor flags) (boot db)) as E.
    destruct (InfluxV2.poll _ _ _) as [[m1 w1] r]. destruct E as (Hc & _ & Hp).
    destruct (Hp (newMonitor_wired flags)) as [Hr _].
    destruct r as [[e|]|]; [| |done];
      (split; [by rewrite cycles_deferred_v2|by eexists]).
Qed.

Lemma one_shot_single_cycle_witness :
  (let env := fun _ : nat => envV1 unreachable in
   let '(s, context, w) := InfluxV1.main (flagsV1 0) [] env 5 in
   let '(_, _, err) :=
     InfluxV1.poll (env 0%nat) (InfluxV1.newContext (flagsV1 0)) (boot []) in
   cycles w = 1%nat
   /\ s = match err with Some e => Panicked (Some e) | None => Returned end
   /\ exit_status s = Some (match err with Some _ => 2 | None => 0 end))
  /\ (let env := fun _ : nat => envV2 (answers (JObject sampleMembers)) in
      let '(s, monitor, w) := InfluxV2.main (flagsV2 0) [] env 5 in
      let '(_, _, r) :=
        InfluxV2.poll (env 0%nat) (InfluxV2.newMonitor (flagsV2 0)) (boot []) in
      cycles w = 1%nat
      /\ exists err,
           r = InfluxV2.returns err
           /\ s = match err with Some e => Panicked (Some e) | None => Returned end
           /\ exit_status s = Some (match err with Some _ => 2 | None => 0 end)).
Proof.
  split.
  - apply (proj1 one_shot_single_cycle (flagsV1 0)). reflexivity.
  - apply (proj2 one_shot_single_cycle (flagsV2 0)). reflexivity.
Defined.

(** The three kinds of error, each fatal to a one-shot run. *)
Example one_shot_fatal_errors :
  let refusing : InfluxV1.Env :=
    {| InfluxV1.exchange := answers (JObject sampleMembers);
       InfluxV1.NewPoint_err := timeOutOfRange;
       InfluxV1.NewHTTPClient_err := None;
       InfluxV1.Write_err := fun _ => Some (WriteError "unauthorized") |} in
  let status env := (InfluxV1.main (flagsV1 0) [] (fun _ => env) 0).1.1 in
  status (envV1 unreachable)
  = Panicked (Some (NetworkError "context deadline exceeded"))
  /\ status (envV1 (answers (JString "envoy")))
     = Panicked (Some (UnmarshalTypeError "string"
         "struct { Production json.RawMessage; Consumption json.RawMessage; Storage json.RawMessage }"))
  /\ status refusing = Panicked (Some (WriteError "unauthorized"))
  /\ status (envV1 (answers (JObject sampleMembers))) = Returned.
Proof. vm_compute. done. Qed.

(** ** C8 *)

(** In the 1.x program the client is made after the points are built.
    A first invocation whose [NewPoint] fails makes none, and the second
    invocation is the one that constructs the client. *)
Lemma client_first_invocation_counterexample :
  let context := InfluxV1.newContext (flagsV1 0) in
  let env := envV1 unreachable in
  let '(context1, w1, err1) :=
    InfluxV1.writeToInflux env context (boot []) lateReading [] in
  let '(context2, w2, err2) :=
    InfluxV1.writeToInflux env context1 w1 sampleReading [] in
  err1 = Some (WriteError "time outside range")
  /\ InfluxV1.influxClient context1 = None /\ clients w1 = 0%nat
  /\ err2 = None
  /\ InfluxV1.influxClient context2 = Some 0%nat /\ clients w2 = 1%nat
  /\ NewClient 0 ["http://localhost:8086"; "user"; "pw"]
     ∈ drop (length (events w1)) (events w2).
Proof. vm_compute. repeat split. do 2 right. left. Qed.

(** C8, as the code has it.  A process constructs at most one database
    client.  An invocation that finds a client reuses it and constructs
    none; invocations that find none construct at most one between them,
    whose handle the process then holds.  In the 2.x program the first
    invocation always constructs the client, and every later one reuses
    it; in the 1.x program the client is constructed by the first
    invocation that gets past building its points. *)
Theorem client_constructed_once :
  (forall calls context w,
     let '(context', w') := writesV1 calls context w in
     match InfluxV1.influxClient context with
     | Some c => InfluxV1.influxClient context' = Some c /\ clients w' = clients w
     | None =>
         (InfluxV1.influxClient context' = None /\ clients w' = clients w)
         \/ (InfluxV1.influxClient context' = Some (clients w)
             /\ clients w' = S (clients w))
     end)
  /\ (forall env prodReadings consumptionReadings calls monitor w,
        InfluxV2.influxClient monitor = None ->
        let '(monitor1, w1, r) :=
          InfluxV2.writeToInflux env monitor w prodReadings consumptionReadings in
        let '(monitor', w') := writesV2 calls monitor1 w1 in
        r <> InfluxV2.panics
        /\ InfluxV2.influxClient monitor1 = Some (clients w)
        /\ clients w1 = S (clients w)
        /\ InfluxV2.influxClient monitor' = Some (clients w)
        /\ clients w' = S (clients w)).
Proof.
  split.
  - assert (Hheld : forall calls context w c,
              InfluxV1.influxClient context = Some c ->
              InfluxV1.influxClient (writesV1 calls context w).1 = Some c
              /\ clients (writesV1 calls context w).2 = clients w).
    { induction calls as [|[[env prodReadings] consumptionReadings] calls IH]; intros context w c Hc; [done|].
      simpl. pose proof (v1_writeToInflux_effect env context w prodReadings consumptionReadings) as E.
      destruct (InfluxV1.writeToInflux env context w prodReadings consumptionReadings) as [[c1 w1] e1].
      destruct E as (_ & _ & _ & _ & E). rewrite Hc in E. destruct E as [E1 E2].
      destruct (IH c1 w1 c E1) as [H1 H2]. split; [done|]. congruence. }
    induction calls as [|[[env prodReadings] consumptionReadings] calls IH]; intros context w.
    { simpl. by destruct (InfluxV1.influxClient context); [|left]. }
    simpl. pose proof (v1_writeToInflux_effect env context w prodReadings consumptionReadings) as E.
    destruct (InfluxV1.writeToInflux env context w prodReadings consumptionReadings) as [[c1 w1] e1].
    destruct E as (_ & _ & _ & _ & E).
    specialize (IH c1 w1). pose proof (Hheld calls c1 w1) as Hh.
    destruct (writesV1 calls c1 w1) as [c' w']. simpl in Hh.
    destruct (InfluxV1.influxClient context) as [c|].
    + destruct E as [E1 E2]. rewrite E1 in IH. destruct IH. split; congruence.
    + destruct E as [(E1 & E2 & _)|[E1 E2]].
      * rewrite E1 in IH. rewrite <- E2. exact IH.
      * right. destruct (Hh _ E1). split; congruence.
  - intros env prodReadings consumptionReadings calls monitor w Hnone.
    pose proof (v2_writeToInflux_effect env monitor w prodReadings consumptionReadings) as E.
    destruct (InfluxV2.writeToInflux env monitor w prodReadings consumptionReadings) as [[m1 w1] r].
    destruct E as (_ & Hw & _ & _ & E). rewrite Hnone in E. destruct E as [E1 E2].
    destruct (Hw (or_introl Hnone)) as [Hr Hw1].
    assert (forall calls m w c,
              wired m -> InfluxV2.influxClient m = Some c ->
              InfluxV2.influxClient (writesV2 calls m w).1 = Some c
              /\ clients (writesV2 calls m w).2 = clients w) as Hheld.
    { clear. induction calls as [|[[env prodReadings] consumptionReadings] calls IH]; intros m w c Hm Hc; [done|].
      simpl. pose proof (v2_writeToInflux_effect env m w prodReadings consumptionReadings) as E.
      destruct (InfluxV2.writeToInflux env m w prodReadings consumptionReadings) as [[m1 w1] r].
      destruct E as (_ & Hw & _ & _ & E). rewrite Hc in E. destruct E as [E1 E2].
      destruct (Hw Hm) as [Hr Hw1]. destruct r as [err|]; [|done].
      destruct (IH m1 w1 c Hw1 E1) as [H1 H2]. split; [done|]. congruence. }
    destruct (Hheld calls m1 w1 _ Hw1 E1) as [H1 H2].
    destruct (writesV2 calls m1 w1) as [m' w']. simpl in *.
    repeat split; congruence.
Qed.

Lemma client_constructed_once_witness :
  let env := envV2 unreachable in
  let '(monitor1, w1, r) :=
    InfluxV2.writeToInflux env (InfluxV2.newMonitor (flagsV2 0)) (boot [])
      lateReading [] in
  let '(monitor', w') :=
    writesV2 [(env, sampleReading, []); (env, sampleReading, [lateReading])]
      monitor1 w1 in
  r <> InfluxV2.panics
  /\ InfluxV2.influxClient monitor1 = Some 0%nat
  /\ clients w1 = 1%nat
  /\ InfluxV2.influxClient monitor' = Some 0%nat
  /\ clients w' = 1%nat.
Proof.
  apply (proj2 client_constructed_once (envV2 unreachable) lateReading []
           [(envV2 unreachable, sampleReading, []);
            (envV2 unreachable, sampleReading, [lateReading])]
           (InfluxV2.newMonitor (flagsV2 0)) (boot [])).
  reflexivity.
Defined.

(** ** C9 *)

(** C9.  A cycle whose [pollEnvoy] returns an error returns that error
    and leaves the context as it was; it adds no event of the writer (no
    entry into [writeToInflux], no point built, no client made, nothing
    written), and the database and the clients are as before. *)
Theorem poll_error_writes_nothing :
  (forall env context w prodReadings consumptionReadings e w1,
     pollEnvoy (InfluxV1.envoyHostPtr context) (InfluxV1.exchange env)
       (emit call_poll w) = (prodReadings, consumptionReadings, Some e, w1) ->
     InfluxV1.poll env context w = (context, w1, Some e)
     /\ store w1 = store w /\ clients w1 = clients w
     /\ exists new, events w1 = events w ++ new
                    /\ Forall (fun ev => isWriterEvent ev = false) new)
  /\ (forall env monitor w prodReadings consumptionReadings e w1,
        pollEnvoy (InfluxV2.envoyHostPtr monitor) (InfluxV2.exchange env)
          (emit call_poll w) = (prodReadings, consumptionReadings, Some e, w1) ->
        InfluxV2.poll env monitor w = (monitor, w1, InfluxV2.returns (Some e))
        /\ store w1 = store w /\ clients w1 = clients w
        /\ exists new, events w1 = events w ++ new
                       /\ Forall (fun ev => isWriterEvent ev = false) new).
Proof.
  assert (forall host x w prodReadings consumptionReadings e w1,
            pollEnvoy host x (emit call_poll w) = (prodReadings, consumptionReadings, Some e, w1) ->
            store w1 = store w /\ clients w1 = clients w
            /\ exists new, events w1 = events w ++ new
                           /\ Forall (fun ev => isWriterEvent ev = false) new) as Hw.
  { intros host x w prodReadings consumptionReadings e w1 H.
    destruct (pollEnvoy_after host x (emit call_poll w)) as (new & (E & S & C) & Hf).
    rewrite H in E, S, C. simpl in *. split; [done|]. split; [done|].
    exists (call_poll :: new). rewrite E, <- app_assoc. split; [done|].
    constructor; [done|]. eapply Forall_impl; [exact Hf|].
    intros ev Hev. by destruct (isEnvoyEvent_quiet ev Hev). }
  split.
  - intros env context w prodReadings consumptionReadings e w1 H. split; [|by eapply Hw].
    unfold InfluxV1.poll. by rewrite H.
  - intros env monitor w prodReadings consumptionReadings e w1 H. split; [|by eapply Hw].
    unfold InfluxV2.poll. by rewrite H.
Qed.

Lemma poll_error_writes_nothing_witness :
  (let context := InfluxV1.newContext (flagsV1 0) in
   let db := [pointOf "readings" sampleReading] in
   let w1 := (pollEnvoy "envoy" unreachable (emit call_poll (boot db))).2 in
   InfluxV1.poll (envV1 unreachable) context (boot db)
   = (context, w1, Some (NetworkError "context deadline exceeded"))
   /\ store w1 = [pointOf "readings" sampleReading] /\ clients w1 = 0%nat
   /\ exists new, events w1 = [] ++ new
                  /\ Forall (fun ev => isWriterEvent ev = false) new)
  /\ (let monitor := InfluxV2.newMonitor (flagsV2 0) in
      let w1 :=
        (pollEnvoy "envoy" (answers (JArray [])) (emit call_poll (boot []))).2 in
      InfluxV2.poll (envV2 (answers (JArray []))) monitor (boot [])
      = (monitor, w1,
         InfluxV2.returns (Some (UnmarshalTypeError "array"
           "struct { Production json.RawMessage; Consumption json.RawMessage; Storage json.RawMessage }")))
      /\ store w1 = [] /\ clients w1 = 0%nat
      /\ exists new, events w1 = [] ++ new
                     /\ Forall (fun ev => isWriterEvent ev = false) new).
Proof.
  split.
  - apply (proj1 poll_error_writes_nothing (envV1 unreachable)
             (InfluxV1.newContext (flagsV1 0))
             (boot [pointOf "readings" sampleReading]) Eim_zero []).
    reflexivity.
  - apply (proj2 poll_error_writes_nothing (envV2 (answers (JArray [])))
             (InfluxV2.newMonitor (flagsV2 0)) (boot []) Eim_zero []).
    reflexivity.
Defined.

(** ** C10 *)





(** * Further properties *)

(** ** The top-level object *)

Lemma ApiFields_find key f :
  json.findField ApiFields key = Some f <-> sameFold key (ApiName f).
Proof.
  rewrite findField_sameFold.
  - split.
    + intros (name & Hin & Hs). unfold ApiFields in Hin.
      repeat (apply elem_of_cons in Hin as [[= -> ->]|Hin]; [done|]).
      by apply elem_of_nil in Hin.
    + intros Hs. exists (ApiName f). split; [|done].
      unfold ApiFields. destruct f; simpl; repeat (first [left; done | right]).
  - unfold ApiFields. repeat constructor.
  - compute_done.
Qed.

Lemma ApiGet_Set f g j a :
  ApiGet f (ApiSet g j a) = if decide (sameFold (ApiName f) (ApiName g))
                            then Some j else ApiGet f a.
Proof. by destruct f, g. Qed.

Lemma object_api_app l1 l2 a :
  object_api (l1 ++ l2) a = object_api l2 (object_api l1 a).
Proof.
  revert a. induction l1 as [|[k j] l1 IH]; intros a; [done|].
  simpl. by destruct (json.findField ApiFields k).
Qed.

Lemma object_api_untouched f members a :
  (forall k j, (k, j) ∈ members -> ~ sameFold k (ApiName f)) ->
  ApiGet f (object_api members a) = ApiGet f a.
Proof.
  revert a. induction members as [|[k j] ms IH]; intros a Hno; [done|].
  simpl. assert (Hms : forall k j, (k, j) ∈ ms -> ~ sameFold k (ApiName f)).
  { intros ???. eapply Hno. by right. }
  destruct (json.findField ApiFields k) as [g|] eqn:E; [|by apply IH].
  rewrite IH by done. rewrite ApiGet_Set.
  apply ApiFields_find in E. case_decide as Hfg; [|done].
  exfalso. eapply Hno; [left|]. unfold sameFold in *. congruence.
Qed.

Lemma object_api_absent members f :
  (forall k j, (k, j) ∈ members -> ~ sameFold k (ApiName f)) ->
  ApiGet f (object_api members api_zero) = None.
Proof. intros Hno. rewrite object_api_untouched by done. by destruct f. Qed.

(** X1.  Each of the three sub-documents is taken from the last member
    of the top-level object whose key equals production, consumption or
    storage up to the case of its letters, whatever its value, [null]
    included; a sub-document without such a member stays nil. *)
Theorem object_api_last_member members f :
  (forall pre k j post,
     members = pre ++ (k, j) :: post ->
     sameFold k (ApiName f) ->
     (forall k' j', (k', j') ∈ post -> ~ sameFold k' (ApiName f)) ->
     ApiGet f (object_api members api_zero) = Some j)
  /\ ((forall k j, (k, j) ∈ members -> ~ sameFold k (ApiName f)) ->
      ApiGet f (object_api members api_zero) = None).
Proof.
  split.
  - intros pre k j post -> Hk Hpost.
    rewrite object_api_app. cbn [object_api].
    apply ApiFields_find in Hk. rewrite Hk.
    rewrite object_api_untouched by done. rewrite ApiGet_Set.
    by case_decide.
  - apply object_api_absent.
Qed.

Lemma object_api_last_member_witness :
  let members :=
    [ ("production", JArray []); ("storage", JNull);
      ("PRODUCTION", JArray [sampleInverters; sampleProduction]) ] in
  ApiGet fProduction (object_api members api_zero)
  = Some (JArray [sampleInverters; sampleProduction])
  /\ ApiGet fConsumption (object_api members api_zero) = None.
Proof.
  intros members. split.
  - apply (proj1 (object_api_last_member members fProduction)
             [("production", JArray []); ("storage", JNull)] "PRODUCTION" _ []
             eq_refl).
    + by vm_compute.
    + intros k' j' Hin. by apply elem_of_nil in Hin.
  - apply (proj2 (object_api_last_member members fConsumption)).
    intros k j Hin.
    repeat (apply elem_of_cons in Hin as [[= -> ->]|Hin]; [by vm_compute|]).
    by apply elem_of_nil in Hin.
Defined.

(** ** Missing sub-documents *)

(** X2.  When the body is [null], or an object without a key that equals
    production up to case, [pollEnvoy] returns the syntax error of an
    empty input, a zero production reading and no consumption readings;
    it has sent its one request and printed nothing. *)
Theorem pollEnvoy_missing_production host exchange w doc :
  exchange (envoyUrl host) = Reads (WellFormed doc) ->
  doc = JNull
  \/ (exists members,
        doc = JObject members
        /\ forall k j, (k, j) ∈ members -> ~ sameFold k "Production") ->
  pollEnvoy host exchange w
  = (Eim_zero, [], Some unexpectedEnd,
     emit (Get (envoyUrl host)) (emit call_pollEnvoy w)).
Proof.
  intros Hx Hdoc. unfold pollEnvoy. fold (envoyUrl host). rewrite Hx.
  destruct Hdoc as [->|(members & -> & Hno)]; [done|].
  unfold Unmarshal_api. fold api_zero.
  pose proof (object_api_absent members fProduction Hno) as Hp.
  simpl in Hp. by rewrite Hp.
Qed.

Lemma pollEnvoy_missing_production_witness :
  pollEnvoy "envoy"
    (answers (JObject [("consumption", JArray sampleConsumption);
                       ("storage", sampleStorage)])) (boot [])
  = (Eim_zero, [], Some unexpectedEnd,
     emit (Get (envoyUrl "envoy")) (emit call_pollEnvoy (boot []))).
Proof.
  apply (pollEnvoy_missing_production "envoy" _ (boot []) _ eq_refl).
  right. eexists. split; [reflexivity|].
  intros k j Hin.
  repeat (apply elem_of_cons in Hin as [[= -> ->]|Hin]; [by vm_compute|]).
  by apply elem_of_nil in Hin.
Defined.

(** X3.  When the production array decodes but the object has no key
    that equals consumption up to case, [pollEnvoy] fails with the syntax
    error of an empty input after it has printed the production line: it
    returns the production reading it decoded and no consumption
    readings. *)
Theorem pollEnvoy_missing_consumption host exchange w members p i r :
  exchange (envoyUrl host) = Reads (WellFormed (JObject members)) ->
  ApiGet fProduction (object_api members api_zero) = Some p ->
  Unmarshal_production (Some p) Inverters_zero Eim_zero = (i, r, None) ->
  (forall k j, (k, j) ∈ members -> ~ sameFold k "Consumption") ->
  pollEnvoy host exchange w
  = (r, [], Some unexpectedEnd,
     emit (Printf (production_line (ReadingTime r) (WNow r)))
       (emit (Get (envoyUrl host)) (emit call_pollEnvoy w))).
Proof.
  intros Hx Hp Hu Hno. unfold pollEnvoy. fold (envoyUrl host). rewrite Hx.
  unfold Unmarshal_api. fold api_zero. simpl in Hp. rewrite Hp, Hu.
  pose proof (object_api_absent members fConsumption Hno) as Hc.
  simpl in Hc. by rewrite Hc.
Qed.

Lemma pollEnvoy_missing_consumption_witness :
  pollEnvoy "envoy"
    (answers (JObject [("production", JArray [sampleInverters; sampleProduction]);
                       ("storage", sampleStorage)])) (boot [])
  = (sampleReading, [], Some unexpectedEnd,
     emit (Printf (production_line (ReadingTime sampleReading) (WNow sampleReading)))
       (emit (Get (envoyUrl "envoy")) (emit call_pollEnvoy (boot [])))).
Proof.
  apply (pollEnvoy_missing_consumption "envoy" _ (boot []) _
           (JArray [sampleInverters; sampleProduction])
           {| ActiveCount := 12 |} sampleReading eq_refl).
  - reflexivity.
  - vm_compute. reflexivity.
  - intros k j Hin.
    repeat (apply elem_of_cons in Hin as [[= -> ->]|Hin]; [by vm_compute|]).
    by apply elem_of_nil in Hin.
Defined.

(** ** Elements past the second of the production array *)



(** ** Errors do not disturb what is decoded *)

Lemma saveError_assoc a b c :
  json.saveError (json.saveError a b) c = json.saveError a (json.saveError b c).
Proof. by destruct a. Qed.

Lemma saveError_None_r a : json.saveError a None = a.
Proof. by destruct a. Qed.

(** A decode into a struct fills it the same whatever was saved before,
    and saves the first error. *)
Lemma value_saved {S F} (fields : list (string * F)) kind
    (set : F -> json.Value -> S -> S) typ j r saved :
  json.value fields kind set typ j r saved
  = ((json.value fields kind set typ j r None).1,
     json.saveError saved (json.value fields kind set typ j r None).2).
Proof.
  destruct j as [| | | | |members]; simpl;
    try (by rewrite ?saveError_None_r).
  revert r saved. induction members as [|[k v] ms IH]; intros r saved; simpl.
  { by rewrite saveError_None_r. }
  destruct (json.findField fields k) as [f|]; [|apply IH].
  destruct (json.store (kind f) v) as [x e].
  rewrite IH, (IH _ (json.saveError None e)). simpl.
  by rewrite saveError_assoc.
Qed.

Lemma array_Eim_saved elems saved :
  array_Eim elems saved
  = (readingOf <$> elems, json.saveError saved (firstError elems)).
Proof.
  revert saved. induction elems as [|e es IH]; intros saved; simpl.
  { by rewrite saveError_None_r. }
  unfold value_Eim at 1. rewrite value_saved. fold (value_Eim e Eim_zero None).
  rewrite IH. unfold readingOf, errorOf. by rewrite saveError_assoc.
Qed.

(** X5.  Whatever the elements of the consumption array are, every one of
    them yields a reading, decoded on its own into a zero [Eim]: an
    element that fails does not stop or change the decode of the others,
    [null] yields a zero reading without an error, and the error returned
    is that of the first element that fails.  The consumption lines are
    printed only when no element fails. *)
Theorem pollEnvoy_consumption_elementwise host exchange w members p cs s i r :
  exchange (envoyUrl host) = Reads (WellFormed (JObject members)) ->
  members ≡ₚ deviceMembers p (JArray cs) s ->
  Unmarshal_production (Some p) Inverters_zero Eim_zero = (i, r, None) ->
  let w1 := emit (Printf (production_line (ReadingTime r) (WNow r)))
              (emit (Get (envoyUrl host)) (emit call_pollEnvoy w)) in
  pollEnvoy host exchange w
  = (r, readingOf <$> cs, firstError cs,
     match firstError cs with
     | Some _ => w1
     | None => foldl (fun w eim => emit (readingLine eim) w) w1 (readingOf <$> cs)
     end)
  /\ readingOf JNull = Eim_zero /\ errorOf JNull = None.
Proof.
  intros Hx Hm Hu w1. split; [|done].
  unfold pollEnvoy. fold (envoyUrl host). rewrite Hx.
  unfold Unmarshal_api. rewrite (object_api_device _ _ _ _ _ Hm).
  cbn [Production Consumption]. rewrite Hu.
  cbn [Unmarshal_consumption]. rewrite array_Eim_saved. simpl.
  by destruct (firstError cs).
Qed.

Lemma pollEnvoy_consumption_elementwise_witness :
  let bad := JObject [("measurementType", JString "net-consumption");
                      ("readingTime", JNumber "1.7e9");
                      ("wNow", JNumber "3")] in
  let cs := [JNull; bad; JString "x"] ++ sampleConsumption in
  (pollEnvoy "envoy"
     (answers (JObject (deviceMembers (JArray [sampleInverters; sampleProduction])
                          (JArray cs) sampleStorage))) (boot [])).1
  = (sampleReading, readingOf <$> cs,
     Some (UnmarshalTypeError "number 1.7e9" "int64")).
Proof.
  intros bad cs.
  pose proof (proj1 (pollEnvoy_consumption_elementwise "envoy"
    (answers (JObject (deviceMembers (JArray [sampleInverters; sampleProduction])
                         (JArray cs) sampleStorage))) (boot [])
    _ (JArray [sampleInverters; sampleProduction]) cs sampleStorage
    {| ActiveCount := 12 |} sampleReading eq_refl (reflexivity _) eq_refl)) as H.
  rewrite H. reflexivity.
Defined.

(** ** Members that set nothing *)

Lemma object_Eim_reading members r saved :
  (json.object EimFields EimKind EimSet members r saved).1
  = (json.object EimFields EimKind EimSet members r None).1.
Proof.
  pose proof (value_saved EimFields EimKind EimSet "main.Eim" (JObject members)
                r saved) as H.
  simpl in H. by rewrite H.
Qed.

(** X6.  A member of a reading object whose key names no field, or whose
    value is [null] or not of its field's type, sets nothing: the reading
    is the one decoded from the object without that member, so that a
    value set by an earlier member survives.  When the value is [null] the
    error is unchanged as well. *)
Theorem reading_member_sets_nothing pre key j post :
  setsNothing key j ->
  (decodeReading (pre ++ (key, j) :: post)).1 = (decodeReading (pre ++ post)).1
  /\ (j = JNull ->
      decodeReading (pre ++ (key, j) :: post) = decodeReading (pre ++ post)).
Proof.
  intros Hn. unfold decodeReading, value_Eim. cbn [json.value].
  rewrite !object_Eim_app.
  destruct (json.object EimFields EimKind EimSet pre Eim_zero None) as [r s].
  cbn [json.object].
  destruct (json.findField EimFields key) as [f|] eqn:E; [|done].
  specialize (Hn f E).
  destruct (json.store (EimKind f) j) as [v e] eqn:Hst. simpl in Hn. subst v.
  split.
  - by rewrite object_Eim_reading, (object_Eim_reading post r s).
  - intros ->. destruct (EimKind f); simpl in Hst; injection Hst as <-;
      by rewrite saveError_None_r.
Qed.

Lemma reading_member_sets_nothing_witness :
  (decodeReading [("wNow", JNumber "250.5"); ("WNow", JString "off");
                  ("readingTime", JNumber "1700000000")]).1
  = (decodeReading [("wNow", JNumber "250.5");
                    ("readingTime", JNumber "1700000000")]).1
  /\ decodeReading [("wNow", JNumber "250.5"); ("wNow", JNull)]
     = decodeReading [("wNow", JNumber "250.5")].
Proof.
  split.
  - apply (proj1 (reading_member_sets_nothing [("wNow", JNumber "250.5")]
                    "WNow" (JString "off") [("readingTime", JNumber "1700000000")]
                    ltac:(intros f [= <-]; reflexivity))).
  - apply (proj2 (reading_member_sets_nothing [("wNow", JNumber "250.5")]
                    "wNow" JNull [] ltac:(intros f [= <-]; reflexivity))).
    reflexivity.
Defined.

(** ** Bounds of what is decoded *)

Lemma ParseInt_range lit bitSize n :
  strconv.ParseInt lit bitSize = Some n ->
  - 2 ^ (bitSize - 1) <= n < 2 ^ (bitSize - 1).
Proof.
  unfold strconv.ParseInt.
  destruct (match lit with
            | String "-" r => (true, r)
            | String "+" r => (false, r)
            | _ => (false, lit)
            end) as [neg body].
  destruct body; [done|].
  destruct (strconv.digits 0 _) as [m|]; [|done].
  destruct (_ && _) eqn:E; [|done]. intros [= <-].
  apply andb_true_iff in E as [E1 E2]. lia.
Qed.

Lemma ParseFloat_finite lit x :
  strconv.ParseFloat lit = Some x -> finite x = true.
Proof.
  unfold strconv.ParseFloat.
  destruct (strconv.decimal lit) as [[[neg m] e]|]; [|done].
  by destruct (strconv.round64 neg m e); intros [= <-].
Qed.

Lemma store_bounded k j v e :
  json.store k j = (Some v, e) -> boundedValue v.
Proof.
  destruct j as [| |lit| | |], k; simpl; try done;
    intros H; repeat case_match; simplify_eq; simpl; try done;
    first [ eapply (ParseInt_range _ 64); eassumption
          | eapply ParseFloat_finite; eassumption ].
Qed.

Lemma EimGet_Set_cases f g v r :
  EimGet f (EimSet g v r) = EimGet f r \/ EimGet f (EimSet g v r) = v.
Proof.
  destruct (decide (f = g)) as [->|Hne].
  - destruct r, g, v; simpl; auto.
  - left. by apply EimGet_Set_other.
Qed.

Lemma value_Eim_bounded j r saved :
  boundedReading r -> boundedReading (value_Eim j r saved).1.
Proof.
  intros Hr. destruct j as [| | | | |members]; try done.
  unfold value_Eim. cbn [json.value].
  revert r saved Hr. induction members as [|[k v] ms IH]; intros r saved Hr; [done|].
  simpl. destruct (json.findField EimFields k) as [g|]; [|by apply IH].
  destruct (json.store (EimKind g) v) as [[x|] e] eqn:Hst; [|by apply IH].
  apply IH. intros f.
  destruct (EimGet_Set_cases f g x r) as [->| ->]; [done|].
  by apply (store_bounded _ _ _ _ Hst).
Qed.

Lemma Eim_zero_bounded : boundedReading Eim_zero.
Proof. intros f. destruct f; simpl; try done; lia. Qed.

Lemma array_productionObj_bounded elems slice i r saved :
  boundedReading r ->
  boundedReading (array_productionObj elems slice i r saved).1.2.
Proof.
  revert slice i r saved.
  induction elems as [|e es IH]; intros slice i r saved Hr; [done|].
  simpl. destruct slice as [|[] slice].
  - by apply IH.
  - destruct e; try (by apply IH);
      match goal with
      | |- context [value_Inverters ?j i saved] =>
          destruct (value_Inverters j i saved)
      end; by apply IH.
  - destruct e; try (by apply IH);
      match goal with
      | |- context [value_Eim ?j r saved] =>
          pose proof (value_Eim_bounded j r saved Hr);
          destruct (value_Eim j r saved)
      end; by apply IH.
Qed.

(** X7.  Every reading [pollEnvoy] returns, on success or with an error,
    has a reading time within the range of [int64] and float fields that
    are numbers: none is infinite or NaN.  A number of the document that
    is out of range is a decode error and sets nothing. *)
Theorem pollEnvoy_readings_bounded host exchange w :
  let '(prodReadings, consumptionReadings, _, _) := pollEnvoy host exchange w in
  boundedReading prodReadings /\ Forall boundedReading consumptionReadings.
Proof.
  pose proof Eim_zero_bounded as Hz.
  unfold pollEnvoy.
  destruct (exchange _) as [?|?|?|[?|doc]]; try done.
  destruct (Unmarshal_api doc _) as [api [?|]]; [done|].
  pose proof (fun elems =>
    array_productionObj_bounded elems [ptr_inverters; ptr_prodReadings]
      Inverters_zero Eim_zero None Hz) as Hp.
  assert (boundedReading
            (Unmarshal_production (Production api) Inverters_zero Eim_zero).1.2)
    as Hprod.
  { unfold Unmarshal_production.
    destruct (Production api) as [[| | | |elems|]|]; first [done|apply Hp]. }
  destruct (Unmarshal_production _ _ _) as [[i r] [?|]]; [done|].
  assert (Forall boundedReading (Unmarshal_consumption (Consumption api)).1)
    as Hcons.
  { unfold Unmarshal_consumption.
    destruct (Consumption api) as [[| | | |elems|]|]; try by constructor.
    rewrite array_Eim_saved. simpl. apply Forall_fmap, Forall_true.
    intros e. by apply value_Eim_bounded. }
  by destruct (Unmarshal_consumption _) as [rs [?|]].
Qed.

(** ** The errors and the requests of [pollEnvoy] *)

Lemma array_productionObj_DecodeError elems slice i r saved :
  savedDecodeError saved ->
  savedDecodeError (array_productionObj elems slice i r saved).2.
Proof.
  revert slice i r saved.
  induction elems as [|e es IH]; intros slice i r saved Hs; [done|].
  simpl. destruct slice as [|[] slice].
  - by apply IH.
  - destruct e; try (by apply IH);
      match goal with
      | |- context [value_Inverters ?j i saved] =>
          pose proof (value_DecodeError InvertersFields (fun _ => json.Int_)
                        InvertersSet "main.Inverters" j i saved Hs);
          fold value_Inverters in *;
          destruct (value_Inverters j i saved)
      end; by apply IH.
  - destruct e; try (by apply IH);
      match goal with
      | |- context [value_Eim ?j r saved] =>
          pose proof (value_DecodeError EimFields EimKind EimSet "main.Eim"
                        j r saved Hs);
          fold value_Eim in *;
          destruct (value_Eim j r saved)
      end; by apply IH.
Qed.

Lemma firstError_DecodeError es : savedDecodeError (firstError es).
Proof.
  induction es as [|e es IH]; [done|]. simpl.
  apply saveError_DecodeError; [|done].
  by apply (value_DecodeError EimFields EimKind EimSet "main.Eim" e Eim_zero None).
Qed.

(** X8.  An error of [pollEnvoy] is a network error or a decode error.
    With a network error it returns a zero production reading and no
    consumption readings, and has printed nothing. *)
Theorem pollEnvoy_error_kinds host exchange w prodReadings consumptionReadings e w' :
  pollEnvoy host exchange w = (prodReadings, consumptionReadings, Some e, w') ->
  DecodeError e
  \/ (exists msg, e = NetworkError msg)
     /\ prodReadings = Eim_zero /\ consumptionReadings = []
     /\ (w' = emit call_pollEnvoy w
         \/ w' = emit (Get (envoyUrl host)) (emit call_pollEnvoy w)).
Proof.
  unfold pollEnvoy. fold (envoyUrl host).
  destruct (exchange _) as [msg|msg|msg|[msg|doc]];
    try (intros [= <- <- <- <-]; right; by eauto 10).
  { intros [= <- <- <- <-]. by left. }
  destruct (Unmarshal_api doc _) as [api [e0|]] eqn:Ha.
  { intros [= <- <- <- <-]. left. destruct doc; simpl in Ha; by simplify_eq. }
  assert (savedDecodeError
            (Unmarshal_production (Production api) Inverters_zero Eim_zero).2)
    as Hp.
  { unfold Unmarshal_production.
    destruct (Production api) as [[| | | |elems|]|]; try done.
    by apply array_productionObj_DecodeError. }
  destruct (Unmarshal_production _ _ _) as [[i r] [e0|]].
  { intros [= <- <- <- <-]. by left. }
  assert (savedDecodeError (Unmarshal_consumption (Consumption api)).2) as Hc.
  { unfold Unmarshal_consumption.
    destruct (Consumption api) as [[| | | |elems|]|]; try done.
    rewrite array_Eim_saved. simpl. apply firstError_DecodeError. }
  destruct (Unmarshal_consumption _) as [rs [e0|]]; [|done].
  intros [= <- <- <- <-]. by left.
Qed.

Lemma pollEnvoy_error_kinds_witness :
  DecodeError (SyntaxError "invalid character '<' looking for beginning of value")
  \/ (exists msg,
        SyntaxError "invalid character '<' looking for beginning of value"
        = NetworkError msg)
     /\ Eim_zero = Eim_zero /\ @nil Eim = []
     /\ (emit (Get (envoyUrl "envoy")) (emit call_pollEnvoy (boot []))
         = emit call_pollEnvoy (boot [])
         \/ emit (Get (envoyUrl "envoy")) (emit call_pollEnvoy (boot []))
            = emit (Get (envoyUrl "envoy")) (emit call_pollEnvoy (boot []))).
Proof.
  apply (pollEnvoy_error_kinds "envoy"
           (fun _ => Reads (Malformed
              "invalid character '<' looking for beginning of value"))
           (boot [])).
  reflexivity.
Defined.

(** X9.  A call of [pollEnvoy] sends one request, to
    [http://<host>/production.json?details=1], and none when the request
    cannot be built.  It never calls the writer or the client library,
    and leaves the database and the clients as they are. *)
Theorem pollEnvoy_one_request host exchange w :
  exists new,
    after w new (pollEnvoy host exchange w).2
    /\ Forall (fun e => isWriterEvent e = false) new
    /\ requests new =
       match exchange ("http://" +:+ host +:+ "/production.json?details=1") with
       | NewRequest_fails _ => []
       | _ => ["http://" +:+ host +:+ "/production.json?details=1"]
       end.
Proof.
  unfold pollEnvoy.
  set (w0 := emit call_pollEnvoy w).
  set (url := "http://" +:+ host +:+ "/production.json?details=1").
  pose proof (after_emit call_pollEnvoy w) as H0. fold w0 in H0.
  pose proof (after_emit (Get url) w0) as H1.
  pose proof (after_trans _ _ _ _ _ H0 H1) as H01.
  destruct (exchange url) as [msg|msg|msg|[msg|doc]]; simpl;
    try (eexists; split; [first [exact H0 | exact H01]|]; by repeat constructor).
  destruct (Unmarshal_api doc _) as [api [e|]]; simpl;
    [eexists; split; [exact H01|]; by repeat constructor|].
  destruct (Unmarshal_production _ _ _) as [[i r] [e|]]; simpl;
    [eexists; split; [exact H01|]; by repeat constructor|].
  set (w2 := emit (Printf (production_line _ _)) (emit (Get url) w0)).
  pose proof (after_trans _ _ _ _ _ H01
    (after_emit (Printf (production_line (ReadingTime r) (WNow r))) _)) as H2.
  fold w2 in H2.
  destruct (Unmarshal_consumption _) as [rs [e|]]; simpl;
    [eexists; split; [exact H2|]; by repeat constructor|].
  eexists. split; [exact (after_trans _ _ _ _ _ H2 (foldl_emit_after rs w2))|].
  split.
  - apply Forall_app. split; [by repeat constructor|].
    apply Forall_fmap. by apply Forall_true.
  - unfold requests. rewrite omap_app. simpl.
    assert (omap (fun e => match e with Get u => Some u | _ => None end)
              ((fun eim => Printf (reading_line (ReadingTime eim)
                                     (MeasurementType eim) (WNow eim))) <$> rs)
            = []) as ->; [|done].
    by induction rs.
Qed.

(** ** A refused point *)

Lemma v1_range_readings_refused env m pre r post err bp w :
  Forall (fun q => InfluxV1.NewPoint_err env (pointOf m q) = None) pre ->
  InfluxV1.NewPoint_err env (pointOf m r) = Some err ->
  InfluxV1.range_readings env m (pre ++ r :: post) bp w
  = (inl err,
     {| events := events w ++ ((fun q => NewPoint (pointOf m q)) <$> (pre ++ [r]));
        store := store w; clients := clients w |}).
Proof.
  intros Hpre Hr. revert bp w.
  induction Hpre as [|q pre Hq _ IH]; intros bp w; simpl.
  - by rewrite Hr.
  - rewrite Hq, IH. simpl. by rewrite <- app_assoc.
Qed.

(** X10.  In the 1.x program, when [NewPoint] refuses a point, the call
    returns that error with the context unchanged, after it has built the
    points up to the refused one and no other: it has constructed no
    client and written nothing. *)
Theorem v1_refused_point_writes_nothing env context w prodReadings
    consumptionReadings pre r post err :
  consumptionReadings ++ [prodReadings] = pre ++ r :: post ->
  Forall (fun q => InfluxV1.NewPoint_err env
                     (pointOf (InfluxV1.measurementNamePtr context) q) = None) pre ->
  InfluxV1.NewPoint_err env (pointOf (InfluxV1.measurementNamePtr context) r)
  = Some err ->
  InfluxV1.writeToInflux env context w prodReadings consumptionReadings
  = (context,
     {| events := events w ++ call_writeToInflux ::
          ((fun q => NewPoint (pointOf (InfluxV1.measurementNamePtr context) q))
             <$> (pre ++ [r]));
        store := store w; clients := clients w |},
     Some err).
Proof.
  intros Hs Hpre Hr. unfold InfluxV1.writeToInflux.
  rewrite NewBatchPoints_s, Hs.
  rewrite (v1_range_readings_refused _ _ _ _ _ _ _ _ Hpre Hr). simpl.
  by rewrite <- app_assoc.
Qed.

Lemma v1_refused_point_writes_nothing_witness :
  InfluxV1.writeToInflux (envV1 unreachable) (InfluxV1.newContext (flagsV1 0))
    (boot []) sampleReading [sampleReading; lateReading; sampleReading]
  = (InfluxV1.newContext (flagsV1 0),
     {| events := [] ++ call_writeToInflux ::
          ((fun q => NewPoint (pointOf "readings" q))
             <$> ([sampleReading] ++ [lateReading]));
        store := []; clients := 0 |},
     Some (WriteError "time outside range")).
Proof.
  apply (v1_refused_point_writes_nothing (envV1 unreachable)
           (InfluxV1.newContext (flagsV1 0)) (boot []) sampleReading
           [sampleReading; lateReading; sampleReading]
           [sampleReading] lateReading [sampleReading; sampleReading]).
  - reflexivity.
  - repeat constructor.
  - reflexivity.
Defined.



Lemma v2_range_readings_refused env m a pre r post err i w :
  (forall k q, pre !! k = Some q ->
     InfluxV2.WritePoint_err env (i + k)%nat (pointOf m q) = None) ->
  InfluxV2.WritePoint_err env (i + length pre)%nat (pointOf m r) = Some err ->
  let '(res, w') :=
    InfluxV2.range_readings env m (Some a) (pre ++ r :: post) i w in
  res = InfluxV2.returns (Some err)
  /\ store w' = store w ++ (pointOf m <$> pre)
  /\ clients w' = clients w
  /\ exists new, events w' = events w ++ new
       /\ concat (handed <$> new) = pointOf m <$> (pre ++ [r]).
Proof.
  revert i w. induction pre as [|q pre IH]; intros i w Hpre Hr; simpl.
  - rewrite Nat.add_0_r in Hr. rewrite Hr. rewrite app_nil_r.
    split; [done|]. split; [done|]. split; [done|].
    eexists [_; _]. split; [simpl; by rewrite <- app_assoc|done].
  - pose proof (Hpre 0%nat q eq_refl) as H0. rewrite Nat.add_0_r in H0.
    rewrite H0.
    specialize (IH (S i) (accept [pointOf m q]
      (emit (WritePoint (InfluxV2.api_client a) (InfluxV2.api_org a)
               (InfluxV2.api_bucket a) (pointOf m q))
         (emit (NewPoint (pointOf m q)) w)))).
    destruct (InfluxV2.range_readings _ _ _ _ _ _) as [res w'].
    destruct IH as (-> & Hs & Hc & new & E & Hh).
    { intros k q' Hk. replace (S i + k)%nat with (i + S k)%nat by lia.
      by apply Hpre. }
    { by replace (S i + length pre)%nat with (i + S (length pre))%nat by lia. }
    split; [done|]. split; [rewrite Hs; simpl; by rewrite <- app_assoc|].
    split; [done|].
    exists ([NewPoint (pointOf m q);
             WritePoint (InfluxV2.api_client a) (InfluxV2.api_org a)
               (InfluxV2.api_bucket a) (pointOf m q)] ++ new).
    split; [rewrite E; simpl; by rewrite <- !app_assoc|].
    rewrite fmap_app, concat_app, Hh. done.
Qed.

(** X12.  In the 2.x program, when the database refuses a point, the
    call returns that error at once: the points before it stay written
    (there is no rollback), the refused point is the last one handed
    over, and the points after it are never sent. *)
Theorem v2_refused_point_keeps_earlier env monitor w prodReadings
    consumptionReadings pre r post err :
  wired monitor ->
  consumptionReadings ++ [prodReadings] = pre ++ r :: post ->
  (forall k q, pre !! k = Some q ->
     InfluxV2.WritePoint_err env k
       (pointOf (InfluxV2.measurementNamePtr monitor) q) = None) ->
  InfluxV2.WritePoint_err env (length pre)
    (pointOf (InfluxV2.measurementNamePtr monitor) r) = Some err ->
  let '(_, w', res) :=
    InfluxV2.writeToInflux env monitor w prodReadings consumptionReadings in
  res = InfluxV2.returns (Some err)
  /\ store w' = store w ++ (pointOf (InfluxV2.measurementNamePtr monitor) <$> pre)
  /\ exists new, events w' = events w ++ new
       /\ concat (handed <$> new)
          = pointOf (InfluxV2.measurementNamePtr monitor) <$> (pre ++ [r]).
Proof.
  intros Hw Hs Hpre Hr. unfold InfluxV2.writeToInflux. rewrite Hs.
  destruct (InfluxV2.influxClient monitor) as [c|] eqn:Hic.
  - destruct Hw as [Hn|[a Ha]]; [congruence|]. rewrite Ha.
    pose proof (v2_range_readings_refused env
      (InfluxV2.measurementNamePtr monitor) a pre r post err 0
      (emit call_writeToInflux w) Hpre Hr) as H.
    destruct (InfluxV2.range_readings _ _ _ _ _ _) as [res w'].
    destruct H as (-> & Hst & _ & new & E & Hh).
    split; [done|]. split; [done|].
    exists (call_writeToInflux :: new). split; [|done].
    rewrite E. simpl. by rewrite <- app_assoc.
  - cbn [construct InfluxV2.set_influx InfluxV2.measurementNamePtr
         InfluxV2.writeAPI].
    match goal with
    | |- context [InfluxV2.range_readings env _ (Some ?a) _ 0 ?w1] =>
        pose proof (v2_range_readings_refused env
          (InfluxV2.measurementNamePtr monitor) a pre r post err 0 w1 Hpre Hr) as H;
        destruct (InfluxV2.range_readings env
          (InfluxV2.measurementNamePtr monitor) (Some a) (pre ++ r :: post) 0 w1)
          as [res w']
    end.
    destruct H as (-> & Hst & _ & new & E & Hh).
    split; [done|]. split; [done|].
    exists ([call_writeToInflux;
             NewClient (clients w) [InfluxV2.influxAddrPtr monitor;
               InfluxV2.dbUserPtr monitor +:+ ":" +:+ InfluxV2.dbPwPtr monitor]]
            ++ new).
    split; [|done]. rewrite E. simpl. by rewrite <- !app_assoc.
Qed.

Lemma v2_refused_point_keeps_earlier_witness :
  let env : InfluxV2.Env :=
    {| InfluxV2.exchange := unreachable;
       InfluxV2.WritePoint_err :=
         fun i _ => if (i =? 1)%nat then Some (WriteError "timeout") else None |} in
  let '(_, w', res) :=
    InfluxV2.writeToInflux env (InfluxV2.newMonitor (flagsV2 0)) (boot [])
      sampleReading [lateReading; sampleReading] in
  res = InfluxV2.returns (Some (WriteError "timeout"))
  /\ store w' = [] ++ (pointOf "readings" <$> [lateReading])
  /\ exists new, events w' = [] ++ new
       /\ concat (handed <$> new)
          = pointOf "readings" <$> ([lateReading] ++ [sampleReading]).
Proof.
  intros env.
  apply (v2_refused_point_keeps_earlier env (InfluxV2.newMonitor (flagsV2 0))
           (boot []) sampleReading [lateReading; sampleReading]
           [lateReading] sampleReading [sampleReading]).
  - by left.
  - reflexivity.
  - intros [|k] q Hk; [reflexivity|]. by destruct k.
  - reflexivity.
Defined.

(** ** A whole cycle *)

Lemma pollEnvoy_readings host exchange w members p cs s i r :
  exchange (envoyUrl host) = Reads (WellFormed (JObject members)) ->
  members ≡ₚ deviceMembers p (JArray cs) s ->
  Unmarshal_production (Some p) Inverters_zero Eim_zero = (i, r, None) ->
  (pollEnvoy host exchange w).1 = (r, readingOf <$> cs, firstError cs).
Proof.
  intros Hx Hm Hu.
  unfold pollEnvoy. fold (envoyUrl host). rewrite Hx.
  unfold Unmarshal_api. rewrite (object_api_device _ _ _ _ _ Hm).
  cbn [Production Consumption]. rewrite Hu.
  cbn [Unmarshal_consumption]. rewrite array_Eim_saved. simpl.
  by destruct (firstError cs).
Qed.

Lemma v1_range_readings_accepted env m rs bp w :
  Forall (fun p => InfluxV1.NewPoint_err env p = None) (pointOf m <$> rs) ->
  exists w', InfluxV1.range_readings env m rs bp w
             = (inr {| bp_database := bp_database bp;
                       bp_precision := bp_precision bp;
                       bp_points := bp_points bp ++ (pointOf m <$> rs) |}, w').
Proof.
  revert bp w. induction rs as [|r rs IH]; intros bp w H; simpl.
  - exists w. rewrite app_nil_r. by destruct bp.
  - apply Forall_cons in H as [Hr H]. rewrite Hr.
    destruct (IH (InfluxV1.AddPoint (pointOf m r) bp)
                (emit (NewPoint (pointOf m r)) w) H) as [w' ->].
    exists w'. simpl. by rewrite <- app_assoc.
Qed.

Lemma v1_writeToInflux_accepted env context w prodReadings consumptionReadings :
  acceptsV1 env context (consumptionReadings ++ [prodReadings]) ->
  (InfluxV1.writeToInflux env context w prodReadings consumptionReadings).2
  = None.
Proof.
  intros (Hp & Hc & Hw). unfold InfluxV1.writeToInflux.
  rewrite NewBatchPoints_s.
  destruct (v1_range_readings_accepted env
              (InfluxV1.measurementNamePtr context)
              (consumptionReadings ++ [prodReadings])
              {| bp_database := InfluxV1.dbNamePtr context;
                 bp_precision := "s"; bp_points := [] |}
              (emit call_writeToInflux w) Hp) as [w' ->].
  simpl. destruct (InfluxV1.influxClient context).
  - by rewrite Hw.
  - rewrite (Hc eq_refl). simpl. by rewrite Hw.
Qed.

(** X13.  A cycle of the 1.x program on a device document whose
    production and consumption arrays decode without error, in an
    outside that accepts the points, returns no error: the database has
    gained the points of the consumption readings, in the order of the
    document, and then the point of the production reading, and the
    process holds a client afterwards. *)
Theorem v1_poll_writes_document env context w members p cs s i r :
  InfluxV1.exchange env (envoyUrl (InfluxV1.envoyHostPtr context))
  = Reads (WellFormed (JObject members)) ->
  members ≡ₚ deviceMembers p (JArray cs) s ->
  Unmarshal_production (Some p) Inverters_zero Eim_zero = (i, r, None) ->
  firstError cs = None ->
  acceptsV1 env context ((readingOf <$> cs) ++ [r]) ->
  let '(context', w', err) := InfluxV1.poll env context w in
  err = None
  /\ store w' = store w ++ (pointOf (InfluxV1.measurementNamePtr context)
                               <$> ((readingOf <$> cs) ++ [r]))
  /\ is_Some (InfluxV1.influxClient context').
Proof.
  intros Hx Hm Hu Hc Ha. unfold InfluxV1.poll.
  pose proof (pollEnvoy_readings _ _ (emit call_poll w) _ _ _ _ _ _ Hx Hm Hu) as E.
  destruct (pollEnvoy_after (InfluxV1.envoyHostPtr context)
              (InfluxV1.exchange env) (emit call_poll w))
    as (new & (_ & Hst & _) & _).
  destruct (pollEnvoy _ _ _) as [[[pr cr] e] w1]. simpl in E, Hst.
  injection E as -> -> ->. rewrite Hc.
  pose proof (v1_writeToInflux_accepted env context w1 r (readingOf <$> cs) Ha)
    as Hn.
  pose proof (v1_writeToInflux_effect env context w1 r (readingOf <$> cs)) as Hf.
  destruct (InfluxV1.writeToInflux _ _ _ _ _) as [[context' w'] err].
  simpl in Hn. subst err.
  destruct Hf as (_ & _ & Hs & _ & Hcl).
  split; [done|]. split; [by rewrite (Hs eq_refl), Hst|].
  destruct (InfluxV1.influxClient context).
  - destruct Hcl as [-> _]. by eexists.
  - destruct Hcl as [(_ & _ & Hne)|[-> _]]; [done|by eexists].
Qed.

Lemma v1_poll_writes_document_witness :
  let '(context', w', err) :=
    InfluxV1.poll (envV1 (answers (JObject sampleMembers)))
      (InfluxV1.newContext (flagsV1 0)) (boot []) in
  err = None
  /\ store w' = [] ++ (pointOf "readings"
                         <$> ((readingOf <$> sampleConsumption) ++ [sampleReading]))
  /\ is_Some (InfluxV1.influxClient context').
Proof.
  apply (v1_poll_writes_document (envV1 (answers (JObject sampleMembers)))
           (InfluxV1.newContext (flagsV1 0)) (boot []) sampleMembers
           (JArray [sampleInverters; sampleProduction]) sampleConsumption
           sampleStorage {| ActiveCount := 12 |} sampleReading).
  - reflexivity.
  - reflexivity.
  - reflexivity.
  - reflexivity.
  - split; [by repeat constructor|]. split; reflexivity.
Defined.

Lemma v2_range_readings_accepted env m a rs i w :
  (forall k q, rs !! k = Some q ->
     InfluxV2.WritePoint_err env (i + k)%nat (pointOf m q) = None) ->
  (InfluxV2.range_readings env m (Some a) rs i w).1 = InfluxV2.returns None.
Proof.
  revert i w. induction rs as [|r rs IH]; intros i w H; simpl; [done|].
  pose proof (H 0%nat r eq_refl) as H0. rewrite Nat.add_0_r in H0.
  rewrite H0. apply IH. intros k q Hk.
  replace (S i + k)%nat with (i + S k)%nat by lia. by apply H.
Qed.

(** X14.  A cycle of the 2.x program on such a document, when the
    database accepts each point at its place, returns no error: the
    database has gained the points of the consumption readings, in the
    order of the document, and then the point of the production
    reading, and the monitor holds a client and its write API. *)
Theorem v2_poll_writes_document env monitor w members p cs s i r :
  wired monitor ->
  InfluxV2.exchange env (envoyUrl (InfluxV2.envoyHostPtr monitor))
  = Reads (WellFormed (JObject members)) ->
  members ≡ₚ deviceMembers p (JArray cs) s ->
  Unmarshal_production (Some p) Inverters_zero Eim_zero = (i, r, None) ->
  firstError cs = None ->
  acceptsV2 env monitor ((readingOf <$> cs) ++ [r]) ->
  let '(monitor', w', res) := InfluxV2.poll env monitor w in
  res = InfluxV2.returns None
  /\ store w' = store w ++ (pointOf (InfluxV2.measurementNamePtr monitor)
                               <$> ((readingOf <$> cs) ++ [r]))
  /\ is_Some (InfluxV2.influxClient monitor')
  /\ is_Some (InfluxV2.writeAPI monitor').
Proof.
  intros Hw Hx Hm Hu Hc Ha. unfold InfluxV2.poll.
  pose proof (pollEnvoy_readings _ _ (emit call_poll w) _ _ _ _ _ _ Hx Hm Hu) as E.
  destruct (pollEnvoy_after (InfluxV2.envoyHostPtr monitor)
              (InfluxV2.exchange env) (emit call_poll w))
    as (new & (_ & Hst & _) & _).
  destruct (pollEnvoy _ _ _) as [[[pr cr] e] w1]. simpl in E, Hst.
  injection E as -> -> ->. rewrite Hc.
  assert ((InfluxV2.writeToInflux env monitor w1 r (readingOf <$> cs)).2
          = InfluxV2.returns None) as Hn.
  { unfold InfluxV2.writeToInflux.
    destruct (InfluxV2.influxClient monitor) as [c|] eqn:Hic.
    - destruct Hw as [Hnone|[a Hapi]]; [congruence|]. rewrite Hapi.
      pose proof (v2_range_readings_accepted env
        (InfluxV2.measurementNamePtr monitor) a ((readingOf <$> cs) ++ [r]) 0
        (emit call_writeToInflux w1) Ha) as H.
      by destruct (InfluxV2.range_readings _ _ _ _ _ _).
    - cbn [construct InfluxV2.set_influx InfluxV2.measurementNamePtr
           InfluxV2.writeAPI].
      match goal with
      | |- context [InfluxV2.range_readings env _ (Some ?a) _ 0 ?w0] =>
          pose proof (v2_range_readings_accepted env
            (InfluxV2.measurementNamePtr monitor) a
            ((readingOf <$> cs) ++ [r]) 0 w0 Ha) as H;
          destruct (InfluxV2.range_readings env
            (InfluxV2.measurementNamePtr monitor) (Some a)
            ((readingOf <$> cs) ++ [r]) 0 w0)
      end.
      done. }
  pose proof (v2_writeToInflux_effect env monitor w1 r (readingOf <$> cs)) as Hf.
  destruct (InfluxV2.writeToInflux _ _ _ _ _) as [[monitor' w'] res].
  simpl in Hn. subst res.
  destruct Hf as (_ & Hwd & _ & Hs & Hcl).
  destruct (Hwd Hw) as [_ Hw'].
  assert (is_Some (InfluxV2.influxClient monitor')) as Hsome.
  { destruct (InfluxV2.influxClient monitor); destruct Hcl as [-> _];
      by eexists. }
  split; [done|]. split; [by rewrite (Hs eq_refl), Hst|]. split; [done|].
  destruct Hw' as [Hnone|Hapi]; [|done].
  rewrite Hnone in Hsome. by destruct Hsome.
Qed.

Lemma v2_poll_writes_document_witness :
  let '(monitor', w', res) :=
    InfluxV2.poll (envV2 (answers (JObject sampleMembers)))
      (InfluxV2.newMonitor (flagsV2 0)) (boot []) in
  res = InfluxV2.returns None
  /\ store w' = [] ++ (pointOf "readings"
                         <$> ((readingOf <$> sampleConsumption) ++ [sampleReading]))
  /\ is_Some (InfluxV2.influxClient monitor')
  /\ is_Some (InfluxV2.writeAPI monitor').
Proof.
  apply (v2_poll_writes_document (envV2 (answers (JObject sampleMembers)))
           (InfluxV2.newMonitor (flagsV2 0)) (boot []) sampleMembers
           (JArray [sampleInverters; sampleProduction]) sampleConsumption
           sampleStorage {| ActiveCount := 12 |} sampleReading).
  - by left.
  - reflexivity.
  - reflexivity.
  - reflexivity.
  - reflexivity.
  - intros k q _. reflexivity.
Defined.

(** ** The client over a run *)

Lemma oneClient_clients held w w' :
  clients w' = clients w -> oneClient held w -> oneClient held w'.
Proof. unfold oneClient. by intros ->. Qed.

Lemma v1_poll_oneClient env context w :
  oneClient (InfluxV1.influxClient context) w ->
  oneClient (InfluxV1.influxClient (InfluxV1.poll env context w).1.1)
    (InfluxV1.poll env context w).1.2.
Proof.
  intros H. unfold InfluxV1.poll.
  destruct (pollEnvoy_after (InfluxV1.envoyHostPtr context)
              (InfluxV1.exchange env) (emit call_poll w))
    as (new & (_ & _ & Hc) & _).
  destruct (pollEnvoy _ _ _) as [[[pr cr] e] w1]. simpl in Hc.
  destruct e as [e|]; simpl; [by apply (oneClient_clients _ w)|].
  pose proof (v1_writeToInflux_effect env context w1 pr cr) as Hf.
  destruct (InfluxV1.writeToInflux _ _ _ _ _) as [[context' w'] err].
  destruct Hf as (_ & _ & _ & _ & Hcl). simpl.
  unfold oneClient in *. rewrite Hc in Hcl. simpl in Hcl.
  destruct H as [[Hh Hn]|[Hh Hn]]; rewrite Hh in Hcl; rewrite Hn in Hcl.
  - destruct Hcl as [(-> & -> & _)|[-> ->]]; [by left|by right].
  - destruct Hcl as [-> ->]. by right.
Qed.

Lemma v1_loop_oneClient env k n context w :
  oneClient (InfluxV1.influxClient context) w ->
  oneClient (InfluxV1.influxClient (InfluxV1.loop env k n context w).1)
    (InfluxV1.loop env k n context w).2.
Proof.
  revert k context w. induction n as [|n IH]; intros k context w H; [done|].
  simpl. pose proof (v1_poll_oneClient (env k) context w H) as Hp.
  destruct (InfluxV1.poll (env k) context w) as [[context' w'] err].
  apply IH. simpl in Hp. by destruct err.
Qed.

Lemma v2_poll_oneClient env monitor w :
  oneClient (InfluxV2.influxClient monitor) w ->
  oneClient (InfluxV2.influxClient (InfluxV2.poll env monitor w).1.1)
    (InfluxV2.poll env monitor w).1.2.
Proof.
  intros H. unfold InfluxV2.poll.
  destruct (pollEnvoy_after (InfluxV2.envoyHostPtr monitor)
              (InfluxV2.exchange env) (emit call_poll w))
    as (new & (_ & _ & Hc) & _).
  destruct (pollEnvoy _ _ _) as [[[pr cr] e] w1]. simpl in Hc.
  destruct e as [e|]; simpl; [by apply (oneClient_clients _ w)|].
  pose proof (v2_writeToInflux_effect env monitor w1 pr cr) as Hf.
  destruct (InfluxV2.writeToInflux _ _ _ _ _) as [[monitor' w'] res].
  destruct Hf as (_ & _ & _ & _ & Hcl). simpl.
  unfold oneClient in *. rewrite Hc in Hcl. simpl in Hcl.
  destruct H as [[Hh Hn]|[Hh Hn]]; rewrite Hh in Hcl; rewrite Hn in Hcl;
    destruct Hcl as [-> ->]; by right.
Qed.

Lemma v2_loop_oneClient env k n monitor w :
  oneClient (InfluxV2.influxClient monitor) w ->
  oneClient (InfluxV2.influxClient (InfluxV2.loop env k n monitor w).1.2)
    (InfluxV2.loop env k n monitor w).2.
Proof.
  revert k monitor w. induction n as [|n IH]; intros k monitor w H; [done|].
  simpl. pose proof (v2_poll_oneClient (env k) monitor w H) as Hp.
  destruct (InfluxV2.poll (env k) monitor w) as [[monitor' w'] [err|]];
    simpl in Hp; [|done].
  apply IH. by destruct err.
Qed.

Lemma v1_deferred_clients context w :
  clients (InfluxV1.deferred context w) = clients w.
Proof. unfold InfluxV1.deferred. by destruct (InfluxV1.influxClient context). Qed.

Lemma v2_deferred_clients monitor w :
  clients (InfluxV2.deferred monitor w) = clients w.
Proof. unfold InfluxV2.deferred. by destruct (InfluxV2.influxClient monitor). Qed.

(** X15.  A process constructs at most one database client over its
    whole run, in either mode and after any number of ticks: at every
    moment it holds no client and has made none, or it holds the one
    client it has made. *)
Theorem main_one_client :
  (forall flags db env ticks,
     oneClient
       (InfluxV1.influxClient (InfluxV1.main flags db env ticks).1.2)
       (InfluxV1.main flags db env ticks).2)
  /\ (forall flags db env ticks,
        oneClient
          (InfluxV2.influxClient (InfluxV2.main flags db env ticks).1.2)
          (InfluxV2.main flags db env ticks).2).
Proof.
  split; intros flags db env ticks.
  - unfold InfluxV1.main.
    assert (oneClient (InfluxV1.influxClient (InfluxV1.newContext flags))
              (boot db)) as H0 by by left.
    destruct (0 <? _).
    + pose proof (v1_loop_oneClient env 0 ticks _ _ H0) as H.
      by destruct (InfluxV1.loop _ _ _ _ _).
    + pose proof (v1_poll_oneClient (env 0%nat) _ _ H0) as H.
      destruct (InfluxV1.poll _ _ _) as [[context w] err]. simpl in H.
      destruct err; simpl;
        (apply (oneClient_clients _ w); [apply v1_deferred_clients|done]).
  - unfold InfluxV2.main.
    assert (oneClient (InfluxV2.influxClient (InfluxV2.newMonitor flags))
              (boot db)) as H0 by by left.
    destruct (0 <? _).
    + pose proof (v2_loop_oneClient env 0 ticks _ _ H0) as H.
      destruct (InfluxV2.loop _ _ _ _ _) as [[s monitor] w]. simpl in H.
      destruct s; simpl; try done;
        (apply (oneClient_clients _ w); [apply v2_deferred_clients|done]).
    + pose proof (v2_poll_oneClient (env 0%nat) _ _ H0) as H.
      destruct (InfluxV2.poll _ _ _) as [[monitor w] [[e|]|]]; simpl in H;
        simpl;
        (apply (oneClient_clients _ w); [apply v2_deferred_clients|done]).
Qed.

(** X16.  The 2.x program never dereferences a nil write API: in either
    mode and after any number of ticks, the process is running, has
    returned, or has panicked with the error of its cycle. *)
Theorem v2_main_never_dereferences_nil flags db env ticks :
  (InfluxV2.main flags db env ticks).1.1 <> Panicked None.
Proof.
  unfold InfluxV2.main. destruct (0 <? _).
  - pose proof (v2_loop_wired env 0 ticks (InfluxV2.newMonitor flags) (boot db)
                  (newMonitor_wired flags)) as H.
    destruct (InfluxV2.loop _ _ _ _ _) as [[s monitor] w].
    by destruct H as (-> & _).
  - pose proof (v2_poll_effect (env 0%nat) (InfluxV2.newMonitor flags)
                  (boot db)) as H.
    destruct (InfluxV2.poll _ _ _) as [[monitor w] r].
    destruct H as (_ & _ & H). destruct (H (newMonitor_wired flags)) as [Hr _].
    by destruct r as [[e|]|].
Qed.

(** ** The deferred close *)

Lemma closed_app w w' new :
  events w' = events w ++ new ->
  Forall (fun e => closeOf e = None) new ->
  closed w' = closed w.
Proof.
  intros E H. unfold closed. rewrite E, omap_app.
  assert (omap closeOf new = []) as ->; [|by rewrite app_nil_r].
  clear E. induction H as [|e new He _ IH]; [done|]. by destruct e.
Qed.

Lemma closed_emit e w : closeOf e = None -> closed (emit e w) = closed w.
Proof. intros H. apply (closed_app w _ [e]); [done|by constructor]. Qed.

Lemma closed_printed err w : closed (printed err w) = closed w.
Proof. destruct err; [by apply closed_emit|done]. Qed.

Lemma pollEnvoy_closed host exchange w :
  closed (pollEnvoy host exchange w).2 = closed w.
Proof.
  destruct (pollEnvoy_after host exchange w) as (new & (E & _) & H).
  apply (closed_app _ _ new E). eapply Forall_impl; [exact H|].
  by intros [| | | |[]| | | | |].
Qed.

Lemma v1_range_readings_closed env m rs bp w :
  closed (InfluxV1.range_readings env m rs bp w).2 = closed w.
Proof.
  revert bp w. induction rs as [|r rs IH]; intros bp w; simpl; [done|].
  destruct (InfluxV1.NewPoint_err env _); [|rewrite IH]; by apply closed_emit.
Qed.

Lemma v1_writeToInflux_closed env context w prodReadings consumptionReadings :
  closed (InfluxV1.writeToInflux env context w prodReadings
            consumptionReadings).1.2 = closed w.
Proof.
  unfold InfluxV1.writeToInflux. rewrite NewBatchPoints_s.
  pose proof (v1_range_readings_closed env
                (InfluxV1.measurementNamePtr context)
                (consumptionReadings ++ [prodReadings])
                {| bp_database := InfluxV1.dbNamePtr context;
                   bp_precision := "s"; bp_points := [] |}
                (emit call_writeToInflux w)) as H.
  destruct (InfluxV1.range_readings _ _ _ _ _) as [[err|bp] w1];
    simpl in H; rewrite closed_emit in H by done; [done|].
  destruct (InfluxV1.influxClient context) as [c|]; simpl.
  - destruct (InfluxV1.Write_err env bp); simpl; rewrite <- H;
      by apply (closed_app _ _ [Write c bp]); [|repeat constructor].
  - destruct (InfluxV1.NewHTTPClient_err env); [done|]. simpl.
    destruct (InfluxV1.Write_err env bp); simpl; rewrite <- H;
      by eapply (closed_app _ _ [_; _]);
        [simpl; rewrite <- app_assoc|repeat constructor].
Qed.

Lemma v1_poll_closed env context w :
  closed (InfluxV1.poll env context w).1.2 = closed w.
Proof.
  unfold InfluxV1.poll.
  pose proof (pollEnvoy_closed (InfluxV1.envoyHostPtr context)
                (InfluxV1.exchange env) (emit call_poll w)) as H.
  rewrite closed_emit in H by done.
  destruct (pollEnvoy _ _ _) as [[[pr cr] e] w1]. simpl in H.
  destruct e; [done|]. by rewrite v1_writeToInflux_closed.
Qed.

Lemma v1_loop_closed env k n context w :
  closed (InfluxV1.loop env k n context w).2 = closed w.
Proof.
  revert k context w. induction n as [|n IH]; intros k context w; [done|].
  simpl. pose proof (v1_poll_closed (env k) context w) as H.
  destruct (InfluxV1.poll (env k) context w) as [[context' w'] err].
  rewrite IH. simpl in H. rewrite <- H. apply (closed_printed err).
Qed.

Lemma v2_range_readings_closed env m api rs i w :
  closed (InfluxV2.range_readings env m api rs i w).2 = closed w.
Proof.
  revert i w. induction rs as [|r rs IH]; intros i w; simpl; [done|].
  destruct api as [a|]; [|by apply closed_emit].
  destruct (InfluxV2.WritePoint_err env i _); [|rewrite IH];
    by eapply (closed_app _ _ [_; _]);
      [simpl; rewrite <- app_assoc|repeat constructor].
Qed.

Lemma v2_writeToInflux_closed env monitor w prodReadings consumptionReadings :
  closed (InfluxV2.writeToInflux env monitor w prodReadings
            consumptionReadings).1.2 = closed w.
Proof.
  unfold InfluxV2.writeToInflux.
  destruct (InfluxV2.influxClient monitor) as [c|].
  - pose proof (v2_range_readings_closed env
                  (InfluxV2.measurementNamePtr monitor)
                  (InfluxV2.writeAPI monitor)
                  (consumptionReadings ++ [prodReadings]) 0
                  (emit call_writeToInflux w)) as H.
    destruct (InfluxV2.range_readings _ _ _ _ _ _) as [res w'].
    simpl in *. rewrite H. by apply closed_emit.
  - cbn [construct InfluxV2.set_influx InfluxV2.measurementNamePtr
         InfluxV2.writeAPI].
    match goal with
    | |- context [InfluxV2.range_readings env ?m ?a ?rs 0 ?w0] =>
        pose proof (v2_range_readings_closed env m a rs 0 w0) as H;
        destruct (InfluxV2.range_readings env m a rs 0 w0) as [res w']
    end.
    simpl in *. rewrite H.
    by eapply (closed_app _ _ [_; _]);
      [simpl; rewrite <- app_assoc|repeat constructor].
Qed.

Lemma v2_poll_closed env monitor w :
  closed (InfluxV2.poll env monitor w).1.2 = closed w.
Proof.
  unfold InfluxV2.poll.
  pose proof (pollEnvoy_closed (InfluxV2.envoyHostPtr monitor)
                (InfluxV2.exchange env) (emit call_poll w)) as H.
  rewrite closed_emit in H by done.
  destruct (pollEnvoy _ _ _) as [[[pr cr] e] w1]. simpl in H.
  destruct e; [done|]. by rewrite v2_writeToInflux_closed.
Qed.

Lemma v2_loop_closed env k n monitor w :
  closed (InfluxV2.loop env k n monitor w).2 = closed w.
Proof.
  revert k monitor w. induction n as [|n IH]; intros k monitor w; [done|].
  simpl. pose proof (v2_poll_closed (env k) monitor w) as H.
  destruct (InfluxV2.poll (env k) monitor w) as [[monitor' w'] [err|]];
    simpl in H; [|done].
  rewrite IH. rewrite <- H. apply (closed_printed err).
Qed.

Lemma closed_deferred held w :
  closed (match held with Some c => emit (Close c) w | None => w end)
  = closed w ++ option_list held.
Proof.
  destruct held as [c|]; simpl; [|by rewrite app_nil_r].
  unfold closed. simpl. by rewrite omap_app.
Qed.

(** X17.  The deferred close runs only when [main] is left.  A one-shot
    run closes the client it holds, once and as its last action, whether
    it returns or panics, and closes nothing when it holds none; a
    repeating run never closes its client, however many ticks it has
    received. *)
Theorem main_closes_on_exit_only :
  (forall flags db env ticks,
     let '(_, context, w) := InfluxV1.main flags db env ticks in
     closed w = (if 0 <? InfluxV1.flag_loop flags then []
                 else option_list (InfluxV1.influxClient context))
     /\ (forall c, InfluxV1.flag_loop flags <= 0 ->
           InfluxV1.influxClient context = Some c ->
           last (events w) = Some (Close c)))
  /\ (forall flags db env ticks,
        let '(_, monitor, w) := InfluxV2.main flags db env ticks in
        closed w = (if 0 <? InfluxV2.flag_loop flags then []
                    else option_list (InfluxV2.influxClient monitor))
        /\ (forall c, InfluxV2.flag_loop flags <= 0 ->
              InfluxV2.influxClient monitor = Some c ->
              last (events w) = Some (Close c))).
Proof.
  split; intros flags db env ticks.
  - unfold InfluxV1.main. cbn [InfluxV1.newContext InfluxV1.loopIntervalPtr].
    destruct (0 <? InfluxV1.flag_loop flags) eqn:Hl.
    + pose proof (v1_loop_closed env 0 ticks (InfluxV1.newContext flags)
                    (boot db)) as H.
      destruct (InfluxV1.loop _ _ _ _ _) as [context w]. split; [done|].
      intros c Hle. apply Z.ltb_lt in Hl. lia.
    + pose proof (v1_poll_closed (env 0%nat) (InfluxV1.newContext flags)
                    (boot db)) as H.
      destruct (InfluxV1.poll _ _ _) as [[context w] err]. simpl in H.
      assert (closed (InfluxV1.deferred context w)
              = option_list (InfluxV1.influxClient context)
              /\ forall c, InfluxV1.influxClient context = Some c ->
                   last (events (InfluxV1.deferred context w)) = Some (Close c))
        as [Hc Hlast].
      { unfold InfluxV1.deferred. rewrite closed_deferred, H. split; [done|].
        intros c ->. simpl. by rewrite last_snoc. }
      destruct err; (split; [done|]); intros c _; apply Hlast.
  - unfold InfluxV2.main. cbn [InfluxV2.newMonitor InfluxV2.loopIntervalPtr].
    destruct (0 <? InfluxV2.flag_loop flags) eqn:Hl.
    + pose proof (v2_loop_closed env 0 ticks (InfluxV2.newMonitor flags)
                    (boot db)) as H.
      pose proof (v2_loop_wired env 0 ticks (InfluxV2.newMonitor flags)
                    (boot db) (newMonitor_wired flags)) as Hw.
      destruct (InfluxV2.loop _ _ _ _ _) as [[s monitor] w].
      destruct Hw as (-> & _). split; [done|].
      intros c Hle. apply Z.ltb_lt in Hl. lia.
    + pose proof (v2_poll_closed (env 0%nat) (InfluxV2.newMonitor flags)
                    (boot db)) as H.
      destruct (InfluxV2.poll _ _ _) as [[monitor w] r]. simpl in H.
      assert (closed (InfluxV2.deferred monitor w)
              = option_list (InfluxV2.influxClient monitor)
              /\ forall c, InfluxV2.influxClient monitor = Some c ->
                   last (events (InfluxV2.deferred monitor w)) = Some (Close c))
        as [Hc Hlast].
      { unfold InfluxV2.deferred. rewrite closed_deferred, H. split; [done|].
        intros c ->. simpl. by rewrite last_snoc. }
      destruct r as [[e|]|]; (split; [done|]); intros c _; apply Hlast.
Qed.

Lemma main_closes_on_exit_only_witness :
  let '(_, context, w) :=
    InfluxV1.main (flagsV1 0) []
      (fun _ => envV1 (answers (JObject sampleMembers))) 0 in
  closed w = [0%nat] /\ last (events w) = Some (Close 0%nat).
Proof.
  pose proof (proj1 main_closes_on_exit_only (flagsV1 0) []
                (fun _ => envV1 (answers (JObject sampleMembers))) 0%nat) as H.
  destruct (InfluxV1.main _ _ _ _) as [[s context] w] eqn:E.
  assert (InfluxV1.influxClient context = Some 0%nat) as Hc.
  { vm_compute in E. by injection E as _ <- _. }
  destruct H as [H1 H2]. split.
  - by rewrite H1, Hc.
  - apply H2; [simpl; lia|exact Hc].
Defined.

(** ** When a write succeeds *)

Lemma v1_range_readings_built env m rs bp w bp' w' :
  InfluxV1.range_readings env m rs bp w = (inr bp', w') ->
  Forall (fun p => InfluxV1.NewPoint_err env p = None) (pointOf m <$> rs).
Proof.
  revert bp w. induction rs as [|r rs IH]; intros bp w H; simpl in *.
  - constructor.
  - destruct (InfluxV1.NewPoint_err env (pointOf m r)) eqn:Hr; [done|].
    constructor; [done|]. by eapply IH.
Qed.

(** X18.  The writer of the 1.x program returns no error exactly when
    [NewPoint] builds the point of every reading, a client is held or
    can be made, and [Write] accepts the batch of all the points. *)
Theorem v1_write_succeeds_iff env context w prodReadings consumptionReadings :
  (InfluxV1.writeToInflux env context w prodReadings consumptionReadings).2
  = None
  <-> acceptsV1 env context (consumptionReadings ++ [prodReadings]).
Proof.
  split; [|apply v1_writeToInflux_accepted].
  unfold InfluxV1.writeToInflux, acceptsV1. rewrite NewBatchPoints_s.
  destruct (InfluxV1.range_readings _ _ _ _ _) as [[err|bp] w1] eqn:E;
    [done|].
  pose proof (v1_range_readings_built _ _ _ _ _ _ _ E) as Hb.
  apply v1_range_readings_points in E. simpl in E. subst bp.
  intros H. split; [done|].
  destruct (InfluxV1.influxClient context) as [c|]; simpl in H.
  - split; [done|]. by destruct (InfluxV1.Write_err env _).
  - destruct (InfluxV1.NewHTTPClient_err env); [done|]. simpl in H.
    split; [done|]. by destruct (InfluxV1.Write_err env _).
Qed.

Lemma v1_write_succeeds_iff_witness :
  (InfluxV1.writeToInflux (envV1 unreachable) (InfluxV1.newContext (flagsV1 0))
     (boot []) sampleReading [sampleReading]).2 = None.
Proof.
  apply (proj2 (v1_write_succeeds_iff (envV1 unreachable)
                  (InfluxV1.newContext (flagsV1 0)) (boot []) sampleReading
                  [sampleReading])).
  split; [by repeat constructor|]. split; reflexivity.
Defined.

Lemma v2_range_readings_written env m a rs i w :
  (InfluxV2.range_readings env m (Some a) rs i w).1 = InfluxV2.returns None ->
  forall k q, rs !! k = Some q ->
    InfluxV2.WritePoint_err env (i + k)%nat (pointOf m q) = None.
Proof.
  revert i w. induction rs as [|r rs IH]; intros i w H k q Hk; [done|].
  simpl in H.
  destruct (InfluxV2.WritePoint_err env i (pointOf m r)) eqn:Hr; [done|].
  destruct k as [|k]; simpl in Hk.
  - injection Hk as <-. by rewrite Nat.add_0_r.
  - replace (i + S k)%nat with (S i + k)%nat by lia. by eapply IH.
Qed.

(** X19.  The writer of the 2.x program, in a monitor that holds the
    write API with its client, returns no error exactly when the
    database accepts the point of every reading at its place. *)
Theorem v2_write_succeeds_iff env monitor w prodReadings consumptionReadings :
  wired monitor ->
  (InfluxV2.writeToInflux env monitor w prodReadings consumptionReadings).2
  = InfluxV2.returns None
  <-> acceptsV2 env monitor (consumptionReadings ++ [prodReadings]).
Proof.
  intros Hw. unfold InfluxV2.writeToInflux, acceptsV2.
  destruct (InfluxV2.influxClient monitor) as [c|] eqn:Hic.
  - destruct Hw as [Hnone|[a Hapi]]; [congruence|]. rewrite Hapi.
    pose proof (v2_range_readings_written env
      (InfluxV2.measurementNamePtr monitor) a
      (consumptionReadings ++ [prodReadings]) 0 (emit call_writeToInflux w))
      as H1.
    pose proof (v2_range_readings_accepted env
      (InfluxV2.measurementNamePtr monitor) a
      (consumptionReadings ++ [prodReadings]) 0 (emit call_writeToInflux w))
      as H2.
    by destruct (InfluxV2.range_readings _ _ _ _ _ _).
  - cbn [construct InfluxV2.set_influx InfluxV2.measurementNamePtr
         InfluxV2.writeAPI].
    match goal with
    | |- context [InfluxV2.range_readings env ?m (Some ?a) ?rs 0 ?w0] =>
        pose proof (v2_range_readings_written env m a rs 0 w0) as H1;
        pose proof (v2_range_readings_accepted env m a rs 0 w0) as H2;
        destruct (InfluxV2.range_readings env m (Some a) rs 0 w0)
    end.
    done.
Qed.

Lemma v2_write_succeeds_iff_witness :
  (InfluxV2.writeToInflux (envV2 unreachable) (InfluxV2.newMonitor (flagsV2 0))
     (boot []) sampleReading [lateReading]).2 = InfluxV2.returns None.
Proof.
  apply (proj2 (v2_write_succeeds_iff (envV2 unreachable)
                  (InfluxV2.newMonitor (flagsV2 0)) (boot []) sampleReading
                  [lateReading] (newMonitor_wired (flagsV2 0)))).
  intros k q _. reflexivity.
Defined.
